(** * Drain: a pull-based adapter over request/response events

    Shallow embedding of [src/index.js] (class [Drain]) and of the
    [asyncDrain] loop of [src/test.js], together with the part of Node's
    [EventEmitter] the class calls ([on], [removeListener], [emit],
    [listenerCount]).

    Modelling choices.
    - JavaScript is single threaded: every method is a function from the
      state of the world to an outcome carrying the new state.
    - A promise created by [next] lives in a store indexed by position; the
      holder [{resolve, reject, promise}] kept in [this._current] is that
      position.  Settling an already settled promise does nothing.
    - [next] is an [async] function: the promise it returns adopts the state
      of the promise the body returns, and an exception of the body becomes
      a rejection.  The returned promise is identified with what it adopts.
    - A response is [undefined] (an [emit] without argument) or an object
      with a [done] property, plain or computed by a getter that reads the
      array shared with the responder, and a [value] property.  A missing
      property reads as [undefined].
    - Listeners are the drain's bound [handleResponse] or external functions
      that update the shared array and emit events; external listeners do
      not call the drain's methods directly.
    - [emit] is recursive through the listeners it calls, so it takes fuel;
      running out of fuel is [Diverged].
    - The [debug] calls are disabled logging and are left out.  The
      emitter's special events ([error], [newListener], [removeListener])
      are outside the model; the theorems about whole runs that depend on
      it take event names that are none of these, or say which of them
      nobody listens to. *)

From stdpp Require Import gmap strings list fin_maps.


(** ** JavaScript values *)

Inductive jsval :=
| VUndefined
| VNull
| VBool (b : bool)
| VNum (n : Z)
| VStr (s : string).

(** ToBoolean, as applied by [if (response.done)] and [!step.done]. *)
Definition truthy (v : jsval) : bool :=
  match v with
  | VUndefined | VNull => false
  | VBool b => b
  | VNum n => negb (n =? 0)%Z
  | VStr s => negb (bool_decide (s = ""))
  end.

Inductive exn :=
| Error (message : string)
| TypeError (message : string).

Definition message_of (e : exn) : string :=
  match e with Error m | TypeError m => m end.

Inductive completion (A : Type) :=
| Yields (a : A)
| Raises (e : exn).
Arguments Yields {A} a.
Arguments Raises {A} e.

(** The [done] property of a response object: a data property, or a getter
    closing over the responder's array. *)
Inductive done_field :=
| DoneData (v : jsval)
| DoneGetter (g : list jsval -> completion jsval).

Inductive payload :=
| PUndefined
| PObject (done : done_field) (value : jsval).

(** [response.done] *)
Definition get_done (response : payload) (responses : list jsval) : completion jsval :=
  match response with
  | PUndefined => Raises (TypeError "Cannot read properties of undefined (reading 'done')")
  | PObject (DoneData v) _ => Yields v
  | PObject (DoneGetter g) _ => g responses
  end.

(** [step.value] *)
Definition get_value (response : payload) : completion jsval :=
  match response with
  | PUndefined => Raises (TypeError "Cannot read properties of undefined (reading 'value')")
  | PObject _ v => Yields v
  end.

(** ** The world *)

Fixpoint count_if {A} (f : A -> bool) (l : list A) : nat :=
  match l with
  | [] => 0
  | x :: l' => if f x then S (count_if f l') else count_if f l'
  end.

Definition external := payload -> list jsval -> list jsval * list (string * payload).

Inductive listener :=
| BoundHandleResponse
| External (f : external).

Definition is_bound (l : listener) : bool :=
  match l with BoundHandleResponse => true | External _ => false end.

Inductive caller := ByDrain | ByOther.

Inductive event :=
| CallOn (ev : string)
| CallRemoveListener (ev : string)
| CallEmit (who : caller) (ev : string) (p : payload)
| CallResolve (h : nat) (r : payload)
| CallReject (h : nat) (e : exn).

Inductive promise_state :=
| Pending
| Fulfilled (r : payload)
| Rejected (e : exn).

Record Options := { request : string; response : string }.

Record Drain := {
  _request : string;
  _response : string;
  _done : bool;
  _current : option nat;
  _waiting : bool
}.

Record World := {
  drain : Drain;
  emitter : gmap string (list listener);
  promises : list promise_state;
  responses : list jsval;
  trace : list event
}.

Definition set_done (b : bool) (w : World) : World :=
  {| drain := {| _request := _request (drain w); _response := _response (drain w);
                 _done := b; _current := _current (drain w);
                 _waiting := _waiting (drain w) |};
     emitter := emitter w; promises := promises w; responses := responses w;
     trace := trace w |}.

Definition set_current (c : option nat) (w : World) : World :=
  {| drain := {| _request := _request (drain w); _response := _response (drain w);
                 _done := _done (drain w); _current := c;
                 _waiting := _waiting (drain w) |};
     emitter := emitter w; promises := promises w; responses := responses w;
     trace := trace w |}.

Definition set_waiting (b : bool) (w : World) : World :=
  {| drain := {| _request := _request (drain w); _response := _response (drain w);
                 _done := _done (drain w); _current := _current (drain w);
                 _waiting := b |};
     emitter := emitter w; promises := promises w; responses := responses w;
     trace := trace w |}.

Definition set_emitter (em : gmap string (list listener)) (w : World) : World :=
  {| drain := drain w; emitter := em; promises := promises w;
     responses := responses w; trace := trace w |}.

Definition set_promises (ps : list promise_state) (w : World) : World :=
  {| drain := drain w; emitter := emitter w; promises := ps;
     responses := responses w; trace := trace w |}.

Definition set_responses (rs : list jsval) (w : World) : World :=
  {| drain := drain w; emitter := emitter w; promises := promises w;
     responses := rs; trace := trace w |}.

Definition log (e : event) (w : World) : World :=
  {| drain := drain w; emitter := emitter w; promises := promises w;
     responses := responses w; trace := trace w ++ [e] |}.

Inductive outcome (A : Type) :=
| Returned (a : A) (w : World)
| Threw (e : exn) (w : World)
| Diverged.
Arguments Returned {A} a w.
Arguments Threw {A} e w.
Arguments Diverged {A}.

Definition world_of {A} (o : outcome A) : option World :=
  match o with
  | Returned _ w | Threw _ w => Some w
  | Diverged => None
  end.

(** ** The emitter *)

Definition listeners (ev : string) (em : gmap string (list listener)) : list listener :=
  default [] (em !! ev).

Definition listenerCount (ev : string) (em : gmap string (list listener)) : nat :=
  length (listeners ev em).

(** [emitter.on(ev, l)] appends to the listener array of [ev]. *)
Definition on (ev : string) (l : listener) (em : gmap string (list listener))
  : gmap string (list listener) :=
  <[ev := listeners ev em ++ [l]]> em.

Fixpoint remove_first_bound (ls : list listener) : list listener :=
  match ls with
  | [] => []
  | l :: ls' => if is_bound l then ls' else l :: remove_first_bound ls'
  end.

(** [removeListener] drops the most recently added instance. *)
Definition remove_last_bound (ls : list listener) : list listener :=
  reverse (remove_first_bound (reverse ls)).

(** [emitter.removeListener(ev, this._boundHandleResponse)] *)
Definition removeListener (ev : string) (em : gmap string (list listener))
  : gmap string (list listener) :=
  alter remove_last_bound ev em.

(** ** Drain *)

(** [toString()], index.js lines 59-61. *)
Definition toString (d : Drain) : string :=
  "<Drain (request: " +:+ _request d +:+ " response: " +:+ _response d +:+ ")>".

(** [dispose()], index.js lines 84-87. *)
Definition dispose (w : World) : World :=
  let w1 := set_done true w in
  log (CallRemoveListener (_response (drain w1)))
      (set_emitter (removeListener (_response (drain w1)) (emitter w1)) w1).

(** Settling the promise of a holder: only a pending promise changes. *)
Definition settle (h : nat) (s : promise_state) (ps : list promise_state)
  : list promise_state :=
  match ps !! h with
  | Some Pending => <[h := s]> ps
  | _ => ps
  end.

Definition null_current (prop : string) : exn :=
  TypeError ("Cannot read properties of null (reading '" +:+ prop +:+ "')").

(** [this._current.resolve(response)] *)
Definition call_resolve (r : payload) (w : World) : outcome unit :=
  match _current (drain w) with
  | None => Threw (null_current "resolve") w
  | Some h => Returned tt (log (CallResolve h r) (set_promises (settle h (Fulfilled r) (promises w)) w))
  end.

(** [this._current.reject(e)] *)
Definition call_reject (e : exn) (w : World) : outcome unit :=
  match _current (drain w) with
  | None => Threw (null_current "reject") w
  | Some h => Returned tt (log (CallReject h e) (set_promises (settle h (Rejected e) (promises w)) w))
  end.

Definition unexpected : string := " Was not expecting a response, but got a response".

(** [handleResponse(response)], index.js lines 63-82: the guard on
    [_waiting], then the [try], the [catch] and the [finally] in turn. *)
Definition handleResponse (response : payload) (w : World) : outcome unit :=
  if negb (_waiting (drain w)) then
    Threw (Error (toString (drain w) +:+ unexpected)) w
  else
    let w1 := set_waiting false w in
    let tried :=
      match get_done response (responses w1) with
      | Raises e => Threw e w1
      | Yields v => call_resolve response (if truthy v then dispose w1 else w1)
      end in
    let caught :=
      match tried with
      | Threw e w2 => call_reject e w2
      | o => o
      end in
    match caught with
    | Returned _ w3 => Returned tt (set_current None w3)
    | Threw e w3 => Threw e (set_current None w3)
    | Diverged => Diverged
    end.

(** Calling every listener of a snapshot in order; an exception of a
    listener propagates and the remaining ones are not called. *)
Fixpoint call_all (call : listener -> payload -> World -> outcome unit)
    (ls : list listener) (p : payload) (w : World) : outcome unit :=
  match ls with
  | [] => Returned tt w
  | l :: ls' =>
      match call l p w with
      | Returned _ w' => call_all call ls' p w'
      | o => o
      end
  end.

Fixpoint emit_all (emit_rec : string -> payload -> World -> outcome unit)
    (outs : list (string * payload)) (w : World) : outcome unit :=
  match outs with
  | [] => Returned tt w
  | (ev, p) :: outs' =>
      match emit_rec ev p w with
      | Returned _ w' => emit_all emit_rec outs' w'
      | o => o
      end
  end.

Definition call_listener (emit_rec : string -> payload -> World -> outcome unit)
    (l : listener) (p : payload) (w : World) : outcome unit :=
  match l with
  | BoundHandleResponse => handleResponse p w
  | External f =>
      let '(rs, outs) := f p (responses w) in
      emit_all emit_rec outs (set_responses rs w)
  end.

(** [emitter.emit(ev, p)]: the listener array is copied, then each listener
    is called synchronously. *)
Fixpoint emit (fuel : nat) (who : caller) (ev : string) (p : payload) (w : World)
  : outcome unit :=
  match fuel with
  | 0 => Diverged
  | S fuel' =>
      let w1 := log (CallEmit who ev p) w in
      call_all (call_listener (emit fuel' ByOther)) (listeners ev (emitter w1)) p w1
  end.

(** [_makeNextRequest()], index.js lines 89-93. *)
Definition _makeNextRequest (fuel : nat) (w : World) : outcome unit :=
  let w1 := set_waiting true w in
  emit fuel ByDrain (_request (drain w1)) PUndefined w1.

(** What the promise returned by [next()] adopts. *)
Inductive next_promise :=
| ResolvedWith (r : payload)
| RejectedWith (e : exn)
| PromiseOf (h : nat).

Definition done_true_null : payload := PObject (DoneData (VBool true)) VNull.

(** [next()], index.js lines 95-116. *)
Definition next (fuel : nat) (w : World) : outcome next_promise :=
  if _done (drain w) then Returned (ResolvedWith done_true_null) w
  else
    match _current (drain w) with
    | Some h => Returned (PromiseOf h) w
    | None =>
        let h := length (promises w) in
        let w1 := set_current (Some h) (set_promises (promises w ++ [Pending]) w) in
        match _makeNextRequest fuel w1 with
        | Returned _ w2 => Returned (PromiseOf h) w2
        | Threw e w2 => Returned (RejectedWith e) w2
        | Diverged => Diverged
        end
    end.

(** [new Drain(emitter, options)], index.js lines 43-53: the emitter holds
    external listeners only, the bound handler being created by the
    constructor. *)
Definition new_Drain (em : gmap string (list external)) (rs : list jsval)
    (options : Options) : World :=
  let em1 : gmap string (list listener) := fmap (M := list) External <$> em in
  {| drain := {| _request := request options; _response := response options;
                 _done := false; _current := None; _waiting := false |};
     emitter := on (response options) BoundHandleResponse em1;
     promises := [];
     responses := rs;
     trace := [CallOn (response options)] |}.

(** ** The consumer loop and the responders of [src/test.js] *)

Inductive awaited :=
| AwaitValue (r : payload)
| AwaitThrow (e : exn)
| AwaitForever.

(** [await p]: in this single-threaded world nothing else runs while the
    consumer waits, so a promise still pending never resumes it. *)
Definition await (p : next_promise) (w : World) : awaited :=
  match p with
  | ResolvedWith r => AwaitValue r
  | RejectedWith e => AwaitThrow e
  | PromiseOf h =>
      match promises w !! h with
      | Some (Fulfilled r) => AwaitValue r
      | Some (Rejected e) => AwaitThrow e
      | _ => AwaitForever
      end
  end.

Inductive drained :=
| Finished (values : list jsval) (w : World)
| Failed (e : exn) (w : World)
| Suspended (w : World)
| DrainDiverged.

(** [asyncDrain(iterableOfPromises)], test.js lines 8-16: [steps] bounds the
    number of pulls. *)
Fixpoint asyncDrain_from (steps fuel : nat) (values : list jsval) (w : World) : drained :=
  match steps with
  | 0 => DrainDiverged
  | S steps' =>
      match next fuel w with
      | Diverged => DrainDiverged
      | Threw e w1 => Failed e w1
      | Returned p w1 =>
          match await p w1 with
          | AwaitForever => Suspended w1
          | AwaitThrow e => Failed e w1
          | AwaitValue step =>
              match get_done step (responses w1) with
              | Raises e => Failed e w1
              | Yields d =>
                  if truthy d then Finished values w1
                  else
                    match get_value step with
                    | Raises e => Failed e w1
                    | Yields v => asyncDrain_from steps' fuel (values ++ [v]) w1
                    end
              end
          end
      end
  end.

Definition asyncDrain (steps fuel : nat) (w : World) : drained :=
  asyncDrain_from steps fuel [] w.

(** The listener of the happy-path tests:
    [() => emitter.emit(response, { done: responses.length === 0, value: responses.shift() })] *)
Definition responder (response_event : string) : external :=
  fun _ rs =>
    (tail rs,
     [(response_event,
       PObject (DoneData (VBool (length rs =? 0))) (hd VUndefined rs))]).

(** The listener of the error test, whose [done] is a getter reading the
    array when the property is read. *)
Definition failing_responder (error : exn) (response_event : string) : external :=
  fun _ rs =>
    (tail rs,
     [(response_event,
       PObject (DoneGetter (fun rs' =>
                  if length rs' =? 1 then Raises error
                  else Yields (VBool (length rs' =? 0))))
               (hd VUndefined rs))]).

(** ** Operations of a consumer and reachable worlds *)

Inductive op :=
| OpNext
| OpHandleResponse (r : payload)
| OpDispose
| OpEmit (ev : string) (p : payload).

(** The world an operation leaves behind, whether it returned or threw. *)
Definition apply_op (fuel : nat) (o : op) (w : World) : option World :=
  match o with
  | OpNext => world_of (next fuel w)
  | OpHandleResponse r => world_of (handleResponse r w)
  | OpDispose => Some (dispose w)
  | OpEmit ev p => world_of (emit fuel ByOther ev p w)
  end.

Definition step (w w' : World) : Prop :=
  ∃ fuel o, apply_op fuel o w = Some w'.

Inductive reachable : World -> Prop :=
| reach_new em rs options : reachable (new_Drain em rs options)
| reach_step w w' : reachable w -> step w w' -> reachable w'.

Inductive steps : World -> World -> Prop :=
| steps_refl w : steps w w
| steps_cons w w' w'' : step w w' -> steps w' w'' -> steps w w''.

(** Number of request events the drain itself put on the bus. *)
Definition is_drain_emit (e : event) : bool :=
  match e with CallEmit ByDrain _ _ => true | _ => false end.

Definition requests_emitted (w : World) : nat :=
  count_if is_drain_emit (trace w).

Definition is_resolve (e : event) : bool :=
  match e with CallResolve _ _ => true | _ => false end.

Definition is_reject (e : event) : bool :=
  match e with CallReject _ _ => true | _ => false end.

Definition resolve_calls (w : World) : nat := count_if is_resolve (trace w).
Definition reject_calls (w : World) : nat := count_if is_reject (trace w).

(** Number of subscriptions of the bound handler to the response event. *)
Definition bound_count (w : World) : nat :=
  count_if is_bound (listeners (_response (drain w)) (emitter w)).

(** ** Predicates used in the proofs *)

(** What holds of the world an [emit] leaves: [P] when it returned, [P] and
    [T] when a listener threw. *)
Definition post (P T : World -> Prop) (o : outcome unit) : Prop :=
  match o with
  | Returned _ w' => P w'
  | Threw _ w' => P w' ∧ T w'
  | Diverged => True
  end.

(** The invariant of reachable worlds. *)
Record Inv (w : World) : Prop := {
  inv_waiting : _waiting (drain w) = true ↔ is_Some (_current (drain w));
  inv_pending : ∀ h, _current (drain w) = Some h -> promises w !! h = Some Pending;
  inv_bound : bound_count w <= 1;
  inv_done : _done (drain w) = true -> bound_count w = 0
}.

Definition not_waiting (w : World) : Prop := _waiting (drain w) = false.

(** While the request of holder [h] is dispatched, either nothing has
    answered yet, or the holder has been settled and cleared. *)
Definition in_flight (n h : nat) (w : World) : Prop :=
  (_current (drain w) = Some h ∧ _waiting (drain w) = true ∧ _done (drain w) = false
   ∧ promises w !! h = Some Pending ∧ requests_emitted w = n)
  ∨ (_current (drain w) = None ∧ _waiting (drain w) = false).

Definition current_cleared (w : World) : Prop := _current (drain w) = None.

(** ** Worlds of the test suite *)

Definition test_options : Options :=
  {| request := "testem:next-module-request";
     response := "testem:next-module-response" |}.

Definition abc : list jsval := [VStr "a"; VStr "b"; VStr "c"].

(** A drain on an emitter without responder. *)
Definition w_fresh : World := new_Drain ∅ [] test_options.

Definition do_op (fuel : nat) (o : op) (w : World) : World :=
  default w (apply_op fuel o w).

(** The same drain after one [next()]. *)
Definition w_pending : World := do_op 1 OpNext w_fresh.

(** The same drain after [dispose()]. *)
Definition w_disposed : World := do_op 0 OpDispose w_fresh.

(** A pull is outstanding and the consumer disposes. *)
Definition w_pending_disposed : World := do_op 0 OpDispose w_pending.

(** A drain facing the responder of the happy-path test. *)
Definition w_responder (request_event response_event : string) : World :=
  new_Drain {[ request_event := [responder response_event] ]} abc
            {| request := request_event; response := response_event |}.

Definition item (v : string) : payload := PObject (DoneData (VBool false)) (VStr v).
Definition last_response : payload := PObject (DoneData (VBool true)) VUndefined.
Definition empty_object : payload := PObject (DoneData VUndefined) VUndefined.
Definition throwing (e : exn) : payload := PObject (DoneGetter (fun _ => Raises e)) VUndefined.

(** The drain is idle in front of the responder's array [rs]. *)
Definition ready (req resp : string) (em : gmap string (list listener))
    (ps : list promise_state) (rs : list jsval) (w : World) : Prop :=
  _request (drain w) = req ∧ _response (drain w) = resp
  ∧ _done (drain w) = false ∧ _current (drain w) = None
  ∧ emitter w = em ∧ promises w = ps ∧ responses w = rs.

(** [n] calls of [next()] in a row, with what each returned. *)
Fixpoint next_times (n fuel : nat) (w : World) : option (list next_promise * World) :=
  match n with
  | 0 => Some ([], w)
  | S n' =>
      match next fuel w with
      | Returned p w' =>
          match next_times n' fuel w' with
          | Some (ps, w'') => Some (p :: ps, w'')
          | None => None
          end
      | _ => None
      end
  end.

(** The drain is done and has emitted [n] requests. *)
Definition stays_done (n : nat) (w : World) : Prop :=
  _done (drain w) = true ∧ requests_emitted w = n.

Definition anything (w : World) : Prop := True.

(** ** Bookkeeping for the properties of whole runs *)

Definition is_pending (s : promise_state) : bool :=
  match s with Pending => true | _ => false end.

(** Promises of the store nobody has settled yet. *)
Definition pending_count (w : World) : nat := count_if is_pending (promises w).

(** Requests the drain still waits an answer for. *)
Definition outstanding (w : World) : nat := if _waiting (drain w) then 1 else 0.

(** The listeners of an array that are not the drain's bound handler. *)
Fixpoint externals_of (ls : list listener) : list external :=
  match ls with
  | [] => []
  | BoundHandleResponse :: ls' => externals_of ls'
  | External f :: ls' => f :: externals_of ls'
  end.

(** The world in which the listeners of the request event are called by a
    [next()] that found neither [_done] nor [_current]: holder stored,
    [_waiting] set, [emit] under way. *)
Definition requesting (w : World) : World :=
  log (CallEmit ByDrain (_request (drain w)) PUndefined)
      (set_waiting true
         (set_current (Some (length (promises w)))
            (set_promises (promises w ++ [Pending]) w))).

(** Requests, holders and settlements match one for one. *)
Record Accounts (w : World) : Prop := {
  acc_requests : requests_emitted w = length (promises w);
  acc_settled : resolve_calls w + reject_calls w + outstanding w = requests_emitted w;
  acc_pending : pending_count w = outstanding w
}.

Definition balanced (w : World) : Prop := Inv w ∧ Accounts w.

(** The bound handler is subscribed to the response event only. *)
Definition bound_only_on_response (w : World) : Prop :=
  ∀ ev, ev ≠ _response (drain w) -> count_if is_bound (listeners ev (emitter w)) = 0.

(** A drain facing the happy-path responder and an array [rs]. *)
Definition w_responding (request_event response_event : string) (rs : list jsval) : World :=
  new_Drain {[ request_event := [responder response_event] ]} rs
            {| request := request_event; response := response_event |}.

(** A drain facing the responder of the error test and an array [rs]. *)
Definition w_failing (error : exn) (request_event response_event : string)
    (rs : list jsval) : World :=
  new_Drain {[ request_event := [failing_responder error response_event] ]} rs
            {| request := request_event; response := response_event |}.

(** A listener that answers one request with two responses. *)
Definition twice (response_event : string) (r1 r2 : payload) : external :=
  fun _ rs => (rs, [(response_event, r1); (response_event, r2)]).

(** The pull of [w_pending] answered with the item "a". *)
Definition w_answered : World := do_op 0 (OpHandleResponse (item "a")) w_pending.

(** A second pull, outstanding. *)
Definition w_pending_again : World := do_op 1 OpNext w_answered.

(** The second pull answered with the item "b". *)
Definition w_answered_again : World := do_op 0 (OpHandleResponse (item "b")) w_pending_again.

(** The drain, the subscriptions and the promises are those of [w]. *)
Definition untouched (w w' : World) : Prop :=
  drain w' = drain w ∧ emitter w' = emitter w ∧ promises w' = promises w.

(** What an [emit] does when the bound handler is subscribed nowhere. *)
Definition unheard_outcome (w : World) (o : outcome unit) : Prop :=
  match o with
  | Returned _ w' => untouched w w'
  | Threw _ _ => False
  | Diverged => True
  end.

(** An event name the emitter gives no meaning of its own: none of
    [error], which [emit] throws on when nobody listens to it, and
    [newListener] and [removeListener], which the emitter emits itself when
    a listener is added or removed.  On emitters where only such names are
    listened to and emitted, the emitter above is Node's. *)
Definition ordinary (ev : string) : Prop :=
  ev ≠ "error" ∧ ev ≠ "newListener" ∧ ev ≠ "removeListener".

(** * Properties *)

(** ** Lists and the emitter *)

Lemma count_if_app {A} (f : A -> bool) (l1 l2 : list A) :
  count_if f (l1 ++ l2) = count_if f l1 + count_if f l2.
Proof.
  induction l1 as [|x l1 IH]; simpl; [done|].
  destruct (f x); simpl; lia.
Qed.

Lemma count_if_reverse {A} (f : A -> bool) (l : list A) :
  count_if f (reverse l) = count_if f l.
Proof.
  induction l as [|x l IH]; [done|].
  rewrite reverse_cons, count_if_app, IH. simpl.
  destruct (f x); lia.
Qed.

Lemma count_if_remove_first_bound ls :
  count_if is_bound (remove_first_bound ls) = pred (count_if is_bound ls).
Proof.
  induction ls as [|l ls IH]; simpl; [done|].
  destruct (is_bound l) eqn:E; simpl; [done|].
  by rewrite E.
Qed.

Lemma remove_first_bound_none ls :
  count_if is_bound ls = 0 -> remove_first_bound ls = ls.
Proof.
  induction ls as [|l ls IH]; simpl; [done|].
  destruct (is_bound l); [done|]. intros H. by rewrite IH.
Qed.

Lemma count_if_remove_last_bound ls :
  count_if is_bound (remove_last_bound ls) = pred (count_if is_bound ls).
Proof.
  unfold remove_last_bound.
  by rewrite count_if_reverse, count_if_remove_first_bound, count_if_reverse.
Qed.

Lemma remove_last_bound_none ls :
  count_if is_bound ls = 0 -> remove_last_bound ls = ls.
Proof.
  intros H. unfold remove_last_bound.
  rewrite remove_first_bound_none by (by rewrite count_if_reverse).
  apply reverse_involutive.
Qed.

Lemma listeners_removeListener_eq ev (em : gmap string (list listener)) :
  listeners ev (removeListener ev em) = remove_last_bound (listeners ev em).
Proof.
  unfold listeners, removeListener. rewrite lookup_alter_eq.
  by destruct (em !! ev).
Qed.

Lemma listeners_removeListener_ne ev ev' (em : gmap string (list listener)) :
  ev ≠ ev' -> listeners ev' (removeListener ev em) = listeners ev' em.
Proof.
  intros H. unfold listeners, removeListener. by rewrite lookup_alter_ne.
Qed.

Lemma listeners_on_eq ev l (em : gmap string (list listener)) :
  listeners ev (on ev l em) = listeners ev em ++ [l].
Proof. unfold listeners at 1, on. by rewrite lookup_insert_eq. Qed.

Lemma listeners_on_ne ev ev' l (em : gmap string (list listener)) :
  ev ≠ ev' -> listeners ev' (on ev l em) = listeners ev' em.
Proof. intros H. unfold listeners, on. by rewrite lookup_insert_ne. Qed.

Lemma removeListener_idem ev (em : gmap string (list listener)) :
  count_if is_bound (listeners ev em) <= 1 ->
  removeListener ev (removeListener ev em) = removeListener ev em.
Proof.
  intros H. unfold removeListener. rewrite alter_alter_eq.
  apply map_eq. intros k. destruct (decide (ev = k)) as [->|Hne].
  - rewrite !lookup_alter_eq. unfold listeners in H.
    destruct (em !! k) as [ls|]; simpl in *; [|done].
    f_equal. apply remove_last_bound_none.
    rewrite count_if_remove_last_bound. lia.
  - by rewrite !lookup_alter_ne.
Qed.

Lemma count_if_fmap_External (fs : list external) :
  count_if is_bound (External <$> fs) = 0.
Proof. induction fs as [|f fs IH]; simpl; done. Qed.

(** ** What [handleResponse] does, case by case *)

Lemma handleResponse_not_waiting r w :
  _waiting (drain w) = false ->
  handleResponse r w = Threw (Error (toString (drain w) +:+ unexpected)) w.
Proof. intros H. unfold handleResponse. by rewrite H. Qed.

Lemma handleResponse_rejects r w h e :
  _waiting (drain w) = true ->
  _current (drain w) = Some h ->
  get_done r (responses w) = Raises e ->
  handleResponse r w =
    Returned tt
      (set_current None
         (log (CallReject h e)
            (set_promises (settle h (Rejected e) (promises w)) (set_waiting false w)))).
Proof.
  intros Hw Hc Hd. unfold handleResponse. rewrite Hw. simpl.
  rewrite Hd. unfold call_reject. simpl. by rewrite Hc.
Qed.

Lemma handleResponse_resolves r w h v :
  _waiting (drain w) = true ->
  _current (drain w) = Some h ->
  get_done r (responses w) = Yields v ->
  let w1 := if truthy v then dispose (set_waiting false w) else set_waiting false w in
  handleResponse r w =
    Returned tt
      (set_current None
         (log (CallResolve h r)
            (set_promises (settle h (Fulfilled r) (promises w1)) w1))).
Proof.
  intros Hw Hc Hd. unfold handleResponse. rewrite Hw. simpl.
  rewrite Hd. unfold call_resolve.
  destruct (truthy v); simpl; by rewrite Hc.
Qed.

(** ** Properties kept by every listener are kept by [emit] *)

Section EmitInvariant.
Variables P T : World -> Prop.

Hypothesis P_log : ∀ ev p w, P w -> P (log (CallEmit ByOther ev p) w).
Hypothesis P_responses : ∀ rs w, P w -> P (set_responses rs w).
Hypothesis P_handle : ∀ r w, P w -> post P T (handleResponse r w).

Lemma emit_all_post emit_rec :
  (∀ ev p w, P w -> post P T (emit_rec ev p w)) ->
  ∀ outs w, P w -> post P T (emit_all emit_rec outs w).
Proof.
  intros Hrec outs. induction outs as [|[ev p] outs IH]; intros w Hw; simpl; [done|].
  specialize (Hrec ev p w Hw).
  destruct (emit_rec ev p w) as [[] w'| |]; simpl in *; auto.
Qed.

Lemma call_all_post emit_rec :
  (∀ ev p w, P w -> post P T (emit_rec ev p w)) ->
  ∀ ls p w, P w -> post P T (call_all (call_listener emit_rec) ls p w).
Proof.
  intros Hrec ls p. induction ls as [|l ls IH]; intros w Hw; simpl; [done|].
  assert (post P T (call_listener emit_rec l p w)) as Hl.
  { destruct l as [|f]; simpl; [by apply P_handle|].
    destruct (f p (responses w)) as [rs outs].
    apply emit_all_post; auto. }
  destruct (call_listener emit_rec l p w) as [[] w'| |]; simpl in *; auto.
Qed.

Lemma emit_other_post fuel :
  ∀ ev p w, P w -> post P T (emit fuel ByOther ev p w).
Proof.
  induction fuel as [|fuel IH]; intros ev p w Hw; simpl; [done|].
  apply call_all_post; auto.
Qed.

Lemma emit_post fuel who ev p w :
  P (log (CallEmit who ev p) w) -> post P T (emit fuel who ev p w).
Proof.
  destruct fuel as [|fuel]; simpl; [done|].
  intros Hw. apply call_all_post; auto using emit_other_post.
Qed.
End EmitInvariant.

(** ** The invariant of reachable worlds *)

Lemma bound_count_dispose w : bound_count (dispose w) = pred (bound_count w).
Proof.
  unfold bound_count, dispose. simpl.
  by rewrite listeners_removeListener_eq, count_if_remove_last_bound.
Qed.

Lemma Inv_log e w : Inv w -> Inv (log e w).
Proof. intros [H1 H2 H3 H4]. by constructor. Qed.

Lemma Inv_set_responses rs w : Inv w -> Inv (set_responses rs w).
Proof. intros [H1 H2 H3 H4]. by constructor. Qed.

Lemma Inv_dispose w : Inv w -> Inv (dispose w).
Proof.
  intros [H1 H2 H3 H4]. constructor; try done.
  - rewrite bound_count_dispose. lia.
  - intros _. rewrite bound_count_dispose. lia.
Qed.

Lemma Inv_handleResponse r w :
  Inv w -> post Inv (fun w' => _waiting (drain w') = false) (handleResponse r w).
Proof.
  intros HI. destruct (_waiting (drain w)) eqn:Hw.
  - destruct (proj1 (inv_waiting w HI) Hw) as [h Hc].
    destruct (get_done r (responses w)) as [v|e] eqn:Hd.
    + rewrite (handleResponse_resolves r w h v Hw Hc Hd). simpl.
      destruct (truthy v).
      * destruct (Inv_dispose w HI) as [_ _ H3 H4].
        constructor; simpl; [|done| |].
        -- split; [done|]. by intros [? ?].
        -- exact H3.
        -- exact H4.
      * destruct HI as [_ _ H3 H4].
        constructor; simpl; [|done| |].
        -- split; [done|]. by intros [? ?].
        -- exact H3.
        -- exact H4.
    + rewrite (handleResponse_rejects r w h e Hw Hc Hd). simpl.
      destruct HI as [_ _ H3 H4].
      constructor; simpl; [|done| |].
      * split; [done|]. by intros [? ?].
      * exact H3.
      * exact H4.
  - rewrite handleResponse_not_waiting by done. simpl. done.
Qed.

Lemma Inv_emit fuel who ev p w :
  Inv w -> post Inv not_waiting (emit fuel who ev p w).
Proof.
  intros HI. apply emit_post.
  - intros. by apply Inv_log.
  - intros. by apply Inv_set_responses.
  - apply Inv_handleResponse.
  - by apply Inv_log.
Qed.

Lemma listeners_fmap_External ev (em : gmap string (list external)) :
  count_if is_bound (listeners ev (fmap (M := list) External <$> em)) = 0.
Proof.
  unfold listeners. rewrite lookup_fmap.
  destruct (em !! ev) as [fs|]; simpl; [|done].
  apply count_if_fmap_External.
Qed.

Lemma bound_count_new em rs options : bound_count (new_Drain em rs options) = 1.
Proof.
  unfold bound_count, new_Drain. simpl.
  rewrite listeners_on_eq, count_if_app, listeners_fmap_External. done.
Qed.

Lemma Inv_new em rs options : Inv (new_Drain em rs options).
Proof.
  constructor.
  - simpl. split; [done|]. by intros [? ?].
  - done.
  - by rewrite bound_count_new.
  - done.
Qed.

Lemma Inv_next fuel w :
  Inv w ->
  match next fuel w with
  | Returned _ w' | Threw _ w' => Inv w'
  | Diverged => True
  end.
Proof.
  intros HI. unfold next.
  destruct (_done (drain w)) eqn:Hd; [done|].
  destruct (_current (drain w)) as [h|] eqn:Hc; [done|].
  unfold _makeNextRequest.
  set (w1 := set_waiting true _).
  assert (Inv w1) as HI1.
  { destruct HI as [H1 H2 H3 H4]. constructor; simpl.
    - split; [by eexists|done].
    - intros h [= <-]. by apply list_lookup_middle.
    - exact H3.
    - by rewrite Hd. }
  pose proof (Inv_emit fuel ByDrain (_request (drain w1)) PUndefined w1 HI1) as H.
  destruct (emit fuel ByDrain (_request (drain w1)) PUndefined w1) as [[] w'|e w'|];
    simpl in *; tauto.
Qed.

Lemma Inv_apply_op fuel o w w' :
  Inv w -> apply_op fuel o w = Some w' -> Inv w'.
Proof.
  intros HI. destruct o as [|r| |ev p]; simpl.
  - pose proof (Inv_next fuel w HI) as H.
    destruct (next fuel w); simpl; intros [= <-] || done; done.
  - pose proof (Inv_handleResponse r w HI) as H.
    destruct (handleResponse r w); simpl in *; intros [= <-] || done; tauto.
  - intros [= <-]. by apply Inv_dispose.
  - pose proof (Inv_emit fuel ByOther ev p w HI) as H.
    destruct (emit fuel ByOther ev p w); simpl in *; intros [= <-] || done; tauto.
Qed.

Lemma reachable_Inv w : reachable w -> Inv w.
Proof.
  induction 1 as [em rs options|w w' _ IH (fuel & o & Hop)].
  - apply Inv_new.
  - by eapply Inv_apply_op.
Qed.

(** ** Settling and awaiting *)

Lemma settle_pending h s ps :
  ps !! h = Some Pending -> settle h s ps !! h = Some s.
Proof.
  intros H. unfold settle. rewrite H.
  apply list_lookup_insert_eq. by eapply lookup_lt_Some.
Qed.

Lemma promises_handleResponse_resolves r w h v :
  _waiting (drain w) = true ->
  _current (drain w) = Some h ->
  promises w !! h = Some Pending ->
  get_done r (responses w) = Yields v ->
  ∃ w', handleResponse r w = Returned tt w' ∧ promises w' !! h = Some (Fulfilled r)
        ∧ _current (drain w') = None.
Proof.
  intros Hw Hc Hp Hd. eexists. split; [by eapply handleResponse_resolves|].
  split; [|done]. destruct (truthy v); simpl; by apply settle_pending.
Qed.

Lemma promises_handleResponse_rejects r w h e :
  _waiting (drain w) = true ->
  _current (drain w) = Some h ->
  promises w !! h = Some Pending ->
  get_done r (responses w) = Raises e ->
  ∃ w', handleResponse r w = Returned tt w' ∧ promises w' !! h = Some (Rejected e)
        ∧ _current (drain w') = None.
Proof.
  intros Hw Hc Hp Hd. eexists. split; [by eapply handleResponse_rejects|].
  split; [|done]. simpl. by apply settle_pending.
Qed.

(** ** One request in flight *)

Lemma requests_emitted_log e w :
  requests_emitted (log e w) = requests_emitted w + (if is_drain_emit e then 1 else 0).
Proof.
  unfold requests_emitted. simpl. rewrite count_if_app. simpl.
  destruct (is_drain_emit e); lia.
Qed.

Lemma in_flight_handleResponse n h r w :
  in_flight n h w -> post (in_flight n h) current_cleared (handleResponse r w).
Proof.
  intros [(Hc & Hw & Hd & Hp & Hn)|(Hc & Hw)].
  - destruct (get_done r (responses w)) as [v|e] eqn:E.
    + rewrite (handleResponse_resolves r w h v Hw Hc E). simpl.
      right. by destruct (truthy v).
    + rewrite (handleResponse_rejects r w h e Hw Hc E). simpl. by right.
  - rewrite handleResponse_not_waiting by done. simpl. split; [by right|done].
Qed.

Lemma in_flight_emit n h fuel w :
  _current (drain w) = Some h ->
  _waiting (drain w) = true ->
  _done (drain w) = false ->
  promises w !! h = Some Pending ->
  S (requests_emitted w) = n ->
  post (in_flight n h) current_cleared
       (emit fuel ByDrain (_request (drain w)) PUndefined w).
Proof.
  intros Hc Hw Hd Hp Hn. apply emit_post.
  - intros ev p w' [(? & ? & ? & ? & ?)|?]; [left|by right].
    rewrite requests_emitted_log. simpl. repeat split; try done. lia.
  - intros rs w' [?|?]; [by left|by right].
  - intros r w'. apply in_flight_handleResponse.
  - left. rewrite requests_emitted_log. simpl. repeat split; try done. lia.
Qed.

Lemma length_settle h x ps : length (settle h x ps) = length ps.
Proof.
  unfold settle. destruct (ps !! h) as [[| |]|]; try done. apply length_insert.
Qed.

Lemma next_idle_unfold fuel w :
  _done (drain w) = false ->
  _current (drain w) = None ->
  next (S fuel) w =
    match call_all (call_listener (emit fuel ByOther))
                   (listeners (_request (drain w)) (emitter w)) PUndefined (requesting w) with
    | Returned _ w2 => Returned (PromiseOf (length (promises w))) w2
    | Threw e w2 => Returned (RejectedWith e) w2
    | Diverged => Diverged
    end.
Proof. intros Hd Hc. unfold next, _makeNextRequest. rewrite Hd, Hc. reflexivity. Qed.

Lemma counts_kept_handleResponse n m r w :
  requests_emitted w = n ∧ length (promises w) = m ->
  post (fun w' => requests_emitted w' = n ∧ length (promises w') = m) anything
       (handleResponse r w).
Proof.
  destruct w as [[rq rp dn cur wt] em ps rs tr].
  unfold handleResponse, call_resolve, call_reject, anything, requests_emitted. simpl.
  intros [Hn Hm]. destruct wt; simpl; [|done].
  destruct (get_done r rs) as [v|e]; [destruct (truthy v)|]; simpl;
    destruct cur; simpl; rewrite ?count_if_app, ?length_settle; simpl;
    repeat split; try done; lia.
Qed.

(** A [next()] that finds the drain idle has emitted one request and
    created one holder when it returns, whatever the listeners did. *)
Lemma next_idle_counts fuel w p w' :
  _done (drain w) = false ->
  _current (drain w) = None ->
  next fuel w = Returned p w' ->
  requests_emitted w' = S (requests_emitted w)
  ∧ length (promises w') = S (length (promises w)).
Proof.
  intros Hd Hc Hn.
  destruct fuel as [|fuel]; [unfold next in Hn; by rewrite Hd, Hc in Hn|].
  rewrite next_idle_unfold in Hn by done.
  set (P := fun w' : World => requests_emitted w' = S (requests_emitted w)
                              ∧ length (promises w') = S (length (promises w))).
  assert (∀ ev p0 w0, P w0 -> P (log (CallEmit ByOther ev p0) w0)) as Hlog.
  { intros ev p0 w0 [H1 H2]. split; [|done]. rewrite requests_emitted_log. simpl. lia. }
  assert (∀ rs w0, P w0 -> P (set_responses rs w0)) as Hrs by done.
  assert (∀ r w0, P w0 -> post P anything (handleResponse r w0)) as Hh.
  { intros r w0. apply counts_kept_handleResponse. }
  assert (P (requesting w)) as H0.
  { unfold P, requesting. rewrite requests_emitted_log. unfold requests_emitted. simpl.
    rewrite length_app. simpl. lia. }
  pose proof (call_all_post P anything Hrs Hh (emit fuel ByOther)
                (emit_other_post P anything Hlog Hrs Hh fuel)
                (listeners (_request (drain w)) (emitter w)) PUndefined (requesting w) H0) as H.
  unfold P in H.
  destruct (call_all _ _ _ _) as [[] w2|e w2|]; simpl in *; [| |done];
    injection Hn as <- <-; lia.
Qed.

(** What a first [next()] leaves behind when nothing has answered yet. *)
Lemma next_fresh fuel w p1 w1 :
  _done (drain w) = false ->
  _current (drain w) = None ->
  next fuel w = Returned p1 w1 ->
  is_Some (_current (drain w1)) ->
  let h := length (promises w) in
  p1 = PromiseOf h ∧ _current (drain w1) = Some h ∧ _waiting (drain w1) = true
  ∧ _done (drain w1) = false ∧ promises w1 !! h = Some Pending
  ∧ requests_emitted w1 = S (requests_emitted w).
Proof.
  intros Hd Hc Hn Hs h. unfold next in Hn. rewrite Hd, Hc in Hn.
  unfold _makeNextRequest in Hn. fold h in Hn.
  set (w0 := set_waiting true _) in Hn.
  pose proof (in_flight_emit (S (requests_emitted w)) h fuel w0) as H.
  change (_request (drain w0)) with (_request (drain (set_waiting true w0))) in H.
  change (set_waiting true w0) with w0 in H.
  specialize (H eq_refl eq_refl Hd (list_lookup_middle _ _ _ _ eq_refl) eq_refl).
  destruct (emit fuel ByDrain (_request (drain w0)) PUndefined w0) as [[] w'|e w'|];
    simpl in H; [| |done].
  - injection Hn as <- <-.
    destruct H as [(? & ? & ? & ? & ?)|(Hnone & _)]; [done|].
    rewrite Hnone in Hs. by destruct Hs.
  - injection Hn as <- <-. destruct H as [_ Hnone]. unfold current_cleared in Hnone.
    rewrite Hnone in Hs. by destruct Hs.
Qed.



(** ** Draining in front of a synchronous responder *)

Lemma settle_last s ps : settle (length ps) s (ps ++ [Pending]) = ps ++ [s].
Proof.
  unfold settle. rewrite list_lookup_middle by done.
  rewrite insert_app_r_alt by lia. by rewrite Nat.sub_diag.
Qed.

Lemma next_round_item req resp em ps x rs k w :
  ready req resp em ps (x :: rs) w ->
  listeners req em = [External (responder resp)] ->
  listeners resp em = [BoundHandleResponse] ->
  ∃ w', next (2 + k) w = Returned (PromiseOf (length ps)) w'
        ∧ ready req resp em (ps ++ [Fulfilled (PObject (DoneData (VBool false)) x)]) rs w'.
Proof.
  destruct w as [[rq rp dn cur wt] em0 ps0 rs0 tr].
  intros (H1 & H2 & H3 & H4 & H5 & H6 & H7) Hreq Hresp. simpl in *. subst.
  unfold next, _makeNextRequest. simpl. rewrite Hreq. simpl. rewrite Hresp. simpl.
  eexists. split; [reflexivity|].
  unfold ready. simpl. by rewrite settle_last.
Qed.

Lemma next_round_last req resp em ps k w :
  ready req resp em ps [] w ->
  listeners req em = [External (responder resp)] ->
  listeners resp em = [BoundHandleResponse] ->
  ∃ w', next (2 + k) w = Returned (PromiseOf (length ps)) w'
        ∧ _done (drain w') = true
        ∧ emitter w' = removeListener resp em
        ∧ promises w' = ps ++ [Fulfilled (PObject (DoneData (VBool true)) VUndefined)]
        ∧ responses w' = [].
Proof.
  destruct w as [[rq rp dn cur wt] em0 ps0 rs0 tr].
  intros (H1 & H2 & H3 & H4 & H5 & H6 & H7) Hreq Hresp. simpl in *. subst.
  unfold next, _makeNextRequest. simpl. rewrite Hreq. simpl. rewrite Hresp. simpl.
  eexists. split; [reflexivity|].
  simpl. by rewrite settle_last.
Qed.

Lemma asyncDrain_from_responder req resp em k :
  listeners req em = [External (responder resp)] ->
  listeners resp em = [BoundHandleResponse] ->
  ∀ rs ps values n w,
    ready req resp em ps rs w ->
    ∃ w', asyncDrain_from (S (length rs) + n) (2 + k) values w = Finished (values ++ rs) w'
          ∧ _done (drain w') = true
          ∧ emitter w' = removeListener resp em.
Proof.
  intros Hreq Hresp rs. induction rs as [|x rs IH]; intros ps values n w Hw.
  - destruct (next_round_last req resp em ps k w Hw Hreq Hresp)
      as (w' & Hn & Hd & He & Hp & Hr).
    exists w'. split; [|done].
    change (S (length []) + n) with (S n).
    cbn [asyncDrain_from]. rewrite Hn. cbn [await]. rewrite Hp.
    rewrite list_lookup_middle by done. simpl. by rewrite app_nil_r.
  - destruct (next_round_item req resp em ps x rs k w Hw Hreq Hresp) as (w' & Hn & Hw').
    destruct (IH _ (values ++ [x]) n w' Hw') as (w'' & Hdr & Hd & He).
    exists w''. split; [|done].
    change (S (length (x :: rs)) + n) with (S (S (length rs) + n)).
    cbn [asyncDrain_from]. rewrite Hn. cbn [await].
    destruct Hw' as (_ & _ & _ & _ & _ & Hp & _). rewrite Hp.
    rewrite list_lookup_middle by done. cbn [get_done truthy get_value].
    rewrite Hdr. by rewrite <- app_assoc.
Qed.

Lemma listeners_w_responder req resp :
  req ≠ resp ->
  let em := emitter (w_responder req resp) in
  listeners req em = [External (responder resp)]
  ∧ listeners resp em = [BoundHandleResponse]
  ∧ listenerCount resp (removeListener resp em) = 0.
Proof.
  intros Hne em. unfold em, w_responder, new_Drain. simpl.
  rewrite map_fmap_singleton. simpl.
  assert (listeners resp ({[req := [External (responder resp)]]} : gmap string (list listener)) = []) as Hnone.
  { unfold listeners. by rewrite lookup_singleton_ne. }
  split; [|split].
  - rewrite listeners_on_ne by done. unfold listeners. by rewrite lookup_singleton_eq.
  - rewrite listeners_on_eq. by rewrite Hnone.
  - unfold listenerCount. rewrite listeners_removeListener_eq, listeners_on_eq, Hnone. done.
Qed.

(** C6: happy-path draining.  In front of a responder that answers each
    request synchronously with the next of "a", "b", "c" and [done] false,
    then with [done] true, the loop that calls [next()] until a result has
    [done] true collects exactly ["a"; "b"; "c"]; afterwards the drain is
    done and nobody listens to the response event.  The two event names
    are distinct and none of the names the emitter treats specially, as
    those of the test suite. *)
Theorem asyncDrain_happy_path req resp n k :
  ordinary req ->
  ordinary resp ->
  req ≠ resp ->
  ∃ w', asyncDrain (4 + n) (2 + k) (w_responder req resp)
          = Finished [VStr "a"; VStr "b"; VStr "c"] w'
        ∧ _done (drain w') = true
        ∧ listenerCount resp (emitter w') = 0.
Proof.
  intros _ _ Hne.
  destruct (listeners_w_responder req resp Hne) as (Hreq & Hresp & Hcount).
  destruct (asyncDrain_from_responder req resp _ k Hreq Hresp abc [] [] n
              (w_responder req resp)) as (w' & Hdr & Hd & He).
  { by repeat split. }
  exists w'. split; [exact Hdr|]. split; [exact Hd|]. by rewrite He.
Qed.

Lemma asyncDrain_happy_path_witness :
  ∃ w', asyncDrain 4 2 (w_responder "testem:next-module-request" "testem:next-module-response")
          = Finished [VStr "a"; VStr "b"; VStr "c"] w'
        ∧ _done (drain w') = true
        ∧ listenerCount "testem:next-module-response" (emitter w') = 0.
Proof.
  apply (asyncDrain_happy_path "testem:next-module-request" "testem:next-module-response" 0 0).
  - repeat split; discriminate.
  - repeat split; discriminate.
  - discriminate.
Defined.

(** ** The worlds of the test suite are reachable *)

Lemma reachable_w_fresh : reachable w_fresh.
Proof. apply reach_new. Qed.

Lemma reachable_w_pending : reachable w_pending.
Proof.
  apply (reach_step w_fresh); [apply reach_new|].
  exists 1, OpNext. reflexivity.
Qed.

Lemma reachable_w_disposed : reachable w_disposed.
Proof.
  apply (reach_step w_fresh); [apply reach_new|].
  exists 0, OpDispose. reflexivity.
Qed.

Lemma reachable_w_pending_disposed : reachable w_pending_disposed.
Proof.
  apply (reach_step w_pending); [apply reachable_w_pending|].
  exists 0, OpDispose. reflexivity.
Qed.

Lemma reachable_waiting w :
  reachable w -> _waiting (drain w) = true ->
  ∃ h, _current (drain w) = Some h ∧ promises w !! h = Some Pending.
Proof.
  intros Hr Hw. apply reachable_Inv in Hr.
  destruct (proj1 (inv_waiting w Hr) Hw) as [h Hc].
  exists h. split; [done|]. by apply (inv_pending w Hr).
Qed.

(** ** Responses whose [done] cannot be read *)

(** C2: when reading [response.done] raises [e] while the drain waits for a
    response, [handleResponse] returns normally, the promise of the pending
    holder is rejected with [e], [reject] is the only call made on the
    holder and [resolve] is not called. *)
Theorem handleResponse_done_raises w r e :
  reachable w ->
  _waiting (drain w) = true ->
  get_done r (responses w) = Raises e ->
  ∃ h w',
    _current (drain w) = Some h
    ∧ handleResponse r w = Returned tt w'
    ∧ promises w' !! h = Some (Rejected e)
    ∧ trace w' = trace w ++ [CallReject h e]
    ∧ resolve_calls w' = resolve_calls w
    ∧ _current (drain w') = None.
Proof.
  intros Hr Hw Hd. destruct (reachable_waiting w Hr Hw) as (h & Hc & Hp).
  exists h. eexists. split; [done|].
  split; [by eapply handleResponse_rejects|]. simpl.
  split; [by apply settle_pending|]. split; [done|]. split; [|done].
  unfold resolve_calls. simpl. rewrite count_if_app. simpl. lia.
Qed.

Lemma handleResponse_done_raises_witness :
  ∃ h w',
    _current (drain w_pending) = Some h
    ∧ handleResponse (throwing (Error "boom!")) w_pending = Returned tt w'
    ∧ promises w' !! h = Some (Rejected (Error "boom!"))
    ∧ trace w' = trace w_pending ++ [CallReject h (Error "boom!")]
    ∧ resolve_calls w' = resolve_calls w_pending
    ∧ _current (drain w') = None.
Proof.
  apply (handleResponse_done_raises w_pending (throwing (Error "boom!")) (Error "boom!")).
  - apply reachable_w_pending.
  - reflexivity.
  - reflexivity.
Defined.

(** ** Responses nobody asked for *)

(** C3: when the drain is not waiting for a response, [handleResponse]
    throws, out of the method, an error whose message starts with the
    label of the drain, which embeds the request and response event names;
    called by [emit] as first listener, the error leaves [emit] too. *)
Theorem handleResponse_unexpected_throws w r :
  _waiting (drain w) = false ->
  ∃ e,
    handleResponse r w = Threw e w
    ∧ message_of e = toString (drain w) +:+ " Was not expecting a response, but got a response"
    ∧ toString (drain w) =
        "<Drain (request: " +:+ _request (drain w) +:+ " response: "
          +:+ _response (drain w) +:+ ")>"
    ∧ ∀ fuel who ev ls,
        listeners ev (emitter w) = BoundHandleResponse :: ls ->
        emit (S fuel) who ev r w = Threw e (log (CallEmit who ev r) w).
Proof.
  intros Hw. eexists. split; [by apply handleResponse_not_waiting|].
  split; [done|]. split; [done|].
  intros fuel who ev ls Hls. simpl. rewrite Hls. simpl.
  rewrite handleResponse_not_waiting by done. done.
Qed.

Lemma handleResponse_unexpected_throws_witness :
  ∃ e,
    handleResponse empty_object w_fresh = Threw e w_fresh
    ∧ message_of e = toString (drain w_fresh) +:+ " Was not expecting a response, but got a response"
    ∧ toString (drain w_fresh) =
        "<Drain (request: " +:+ _request (drain w_fresh) +:+ " response: "
          +:+ _response (drain w_fresh) +:+ ")>"
    ∧ ∀ fuel who ev ls,
        listeners ev (emitter w_fresh) = BoundHandleResponse :: ls ->
        emit (S fuel) who ev empty_object w_fresh
          = Threw e (log (CallEmit who ev empty_object) w_fresh).
Proof.
  apply (handleResponse_unexpected_throws w_fresh empty_object). reflexivity.
Defined.

Example toString_test :
  toString (drain w_fresh) =
    "<Drain (request: testem:next-module-request response: testem:next-module-response)>".
Proof. reflexivity. Qed.

Example unexpected_through_emit :
  ∃ e w', emit 1 ByOther "testem:next-module-response" empty_object w_fresh = Threw e w'
          ∧ message_of e =
              "<Drain (request: testem:next-module-request response: testem:next-module-response)> Was not expecting a response, but got a response".
Proof. eexists. eexists. split; reflexivity. Qed.

(** ** The last response *)

(** C4: when a response whose [done] is true is handled while the drain
    waits, the drain is disposed first: in the world [resolve] is called
    in, [done] is true, the bound handler is unsubscribed and the promise
    of the holder is still pending.  Then the promise is fulfilled with the
    response object itself, all within the one call. *)
Theorem handleResponse_done_disposes_then_resolves w r v :
  reachable w ->
  _waiting (drain w) = true ->
  get_done r (responses w) = Yields v ->
  truthy v = true ->
  ∃ h wd w2,
    _current (drain w) = Some h
    ∧ wd = dispose (set_waiting false w)
    ∧ _done (drain wd) = true
    ∧ bound_count wd = 0
    ∧ promises wd !! h = Some Pending
    ∧ call_resolve r wd = Returned tt w2
    ∧ handleResponse r w = Returned tt (set_current None w2)
    ∧ promises w2 !! h = Some (Fulfilled r)
    ∧ trace w2 = trace w ++ [CallRemoveListener (_response (drain w)); CallResolve h r]
    ∧ _done (drain w2) = true
    ∧ bound_count w2 = 0.
Proof.
  intros Hr Hw Hd Hv. destruct (reachable_waiting w Hr Hw) as (h & Hc & Hp).
  pose proof (reachable_Inv w Hr) as HI.
  assert (bound_count (dispose (set_waiting false w)) = 0) as Hb.
  { rewrite bound_count_dispose.
    pose proof (inv_bound w HI) as H. unfold bound_count in *. simpl. lia. }
  exists h. eexists. eexists. split; [done|]. split; [reflexivity|].
  split; [done|]. split; [exact Hb|]. split; [exact Hp|].
  split; [unfold call_resolve; simpl; rewrite Hc; reflexivity|].
  split.
  { rewrite (handleResponse_resolves r w h v Hw Hc Hd). by rewrite Hv. }
  split; [simpl; by apply settle_pending|].
  split; [simpl; by rewrite <- app_assoc|].
  split; [done|]. exact Hb.
Qed.

Lemma handleResponse_done_disposes_then_resolves_witness :
  ∃ h wd w2,
    _current (drain w_pending) = Some h
    ∧ wd = dispose (set_waiting false w_pending)
    ∧ _done (drain wd) = true
    ∧ bound_count wd = 0
    ∧ promises wd !! h = Some Pending
    ∧ call_resolve last_response wd = Returned tt w2
    ∧ handleResponse last_response w_pending = Returned tt (set_current None w2)
    ∧ promises w2 !! h = Some (Fulfilled last_response)
    ∧ trace w2 = trace w_pending
                   ++ [CallRemoveListener (_response (drain w_pending)); CallResolve h last_response]
    ∧ _done (drain w2) = true
    ∧ bound_count w2 = 0.
Proof.
  apply (handleResponse_done_disposes_then_resolves w_pending last_response (VBool true)).
  - apply reachable_w_pending.
  - reflexivity.
  - reflexivity.
  - reflexivity.
Defined.

(** ** After disposal *)

(** C5: once [done] is true, for instance after [dispose()], every
    [next()] yields [{done: true, value: null}] and leaves the world, hence
    the bus, as it was, however many times it is called. *)
Theorem next_after_done fuel n w :
  _done (drain w) = true ->
  next fuel w = Returned (ResolvedWith (PObject (DoneData (VBool true)) VNull)) w
  ∧ await (ResolvedWith (PObject (DoneData (VBool true)) VNull)) w
      = AwaitValue (PObject (DoneData (VBool true)) VNull)
  ∧ next_times n fuel w
      = Some (replicate n (ResolvedWith (PObject (DoneData (VBool true)) VNull)), w).
Proof.
  intros Hd.
  assert (next fuel w = Returned (ResolvedWith (PObject (DoneData (VBool true)) VNull)) w) as Hn.
  { unfold next. by rewrite Hd. }
  split; [exact Hn|]. split; [done|].
  induction n as [|n IH]; simpl; [done|]. by rewrite Hn, IH.
Qed.

Lemma next_after_done_witness :
  next 0 (dispose w_fresh) = Returned (ResolvedWith (PObject (DoneData (VBool true)) VNull)) (dispose w_fresh)
  ∧ await (ResolvedWith (PObject (DoneData (VBool true)) VNull)) (dispose w_fresh)
      = AwaitValue (PObject (DoneData (VBool true)) VNull)
  ∧ next_times 3 0 (dispose w_fresh)
      = Some (replicate 3 (ResolvedWith (PObject (DoneData (VBool true)) VNull)), dispose w_fresh).
Proof.
  apply (next_after_done 0 3 (dispose w_fresh)). reflexivity.
Defined.

(** ** One settlement per response *)

(** C7: a call of [handleResponse] made while the drain waits returns after
    exactly one call on the pending holder, [resolve] or [reject] and not
    both, and with the holder reference cleared. *)
Theorem handleResponse_settles_once w r :
  reachable w ->
  _waiting (drain w) = true ->
  ∃ h w',
    _current (drain w) = Some h
    ∧ handleResponse r w = Returned tt w'
    ∧ ((resolve_calls w' = S (resolve_calls w) ∧ reject_calls w' = reject_calls w
        ∧ promises w' !! h = Some (Fulfilled r))
       ∨ (resolve_calls w' = resolve_calls w ∧ reject_calls w' = S (reject_calls w)
          ∧ ∃ e, promises w' !! h = Some (Rejected e)))
    ∧ _current (drain w') = None
    ∧ _waiting (drain w') = false.
Proof.
  intros Hr Hw. destruct (reachable_waiting w Hr Hw) as (h & Hc & Hp).
  exists h. destruct (get_done r (responses w)) as [v|e] eqn:Hd.
  - eexists. split; [done|]. split; [by eapply handleResponse_resolves|].
    split; [|by destruct (truthy v)]. left.
    unfold resolve_calls, reject_calls. simpl. rewrite !count_if_app. simpl.
    destruct (truthy v); simpl; rewrite ?count_if_app; simpl;
      (split; [lia|split; [lia|by apply settle_pending]]).
  - eexists. split; [done|]. split; [by eapply handleResponse_rejects|].
    split; [|done]. right.
    unfold resolve_calls, reject_calls. simpl. rewrite !count_if_app. simpl.
    split; [lia|split; [lia|]]. exists e. by apply settle_pending.
Qed.

Lemma handleResponse_settles_once_witness :
  ∃ h w',
    _current (drain w_pending) = Some h
    ∧ handleResponse (item "a") w_pending = Returned tt w'
    ∧ ((resolve_calls w' = S (resolve_calls w_pending)
        ∧ reject_calls w' = reject_calls w_pending
        ∧ promises w' !! h = Some (Fulfilled (item "a")))
       ∨ (resolve_calls w' = resolve_calls w_pending
          ∧ reject_calls w' = S (reject_calls w_pending)
          ∧ ∃ e, promises w' !! h = Some (Rejected e)))
    ∧ _current (drain w') = None
    ∧ _waiting (drain w') = false.
Proof.
  apply (handleResponse_settles_once w_pending (item "a")).
  - apply reachable_w_pending.
  - reflexivity.
Defined.

(** ** [done] never reverts *)

Lemma stays_done_handleResponse n r w :
  stays_done n w -> post (stays_done n) anything (handleResponse r w).
Proof.
  destruct w as [[rq rp dn cur wt] em ps rs tr].
  intros [Hd Hn]. unfold handleResponse, call_resolve, call_reject, stays_done, anything.
  unfold requests_emitted in *. simpl in *.
  destruct wt; simpl; [|done].
  destruct (get_done r rs) as [v|e]; [destruct (truthy v)|]; simpl;
    destruct cur; simpl; rewrite ?count_if_app; simpl;
    repeat split; try done; lia.
Qed.

Lemma stays_done_emit n fuel ev p w :
  stays_done n w -> post (stays_done n) anything (emit fuel ByOther ev p w).
Proof.
  intros H. apply emit_post.
  - intros ev' p' w' [Hd Hn]. split; [done|]. rewrite requests_emitted_log. simpl. lia.
  - intros rs w' [Hd Hn]. by split.
  - intros r' w'. apply stays_done_handleResponse.
  - destruct H as [Hd Hn]. split; [done|]. rewrite requests_emitted_log. simpl. lia.
Qed.

Lemma stays_done_dispose n w : stays_done n w -> stays_done n (dispose w).
Proof.
  intros [Hd Hn]. split; [done|].
  unfold requests_emitted in *. simpl. rewrite count_if_app. simpl. lia.
Qed.

Lemma stays_done_step n w w' : stays_done n w -> step w w' -> stays_done n w'.
Proof.
  intros H (fuel & o & Hop). destruct o as [|r| |ev p]; simpl in Hop.
  - unfold next in Hop. destruct H as [Hd Hn]. rewrite Hd in Hop.
    injection Hop as <-. by split.
  - pose proof (stays_done_handleResponse n r w H) as Hp.
    destruct (handleResponse r w); simpl in *; [| |done]; injection Hop as <-; tauto.
  - injection Hop as <-. by apply stays_done_dispose.
  - pose proof (stays_done_emit n fuel ev p w H) as Hp.
    destruct (emit fuel ByOther ev p w); simpl in *; [| |done]; injection Hop as <-; tauto.
Qed.

Lemma stays_done_steps n w w' : steps w w' -> stays_done n w -> stays_done n w'.
Proof.
  induction 1 as [w|w w' w'' Hs _ IH]; [done|].
  intros H. apply IH. by eapply stays_done_step.
Qed.

Lemma reachable_steps w w' : steps w w' -> reachable w -> reachable w'.
Proof.
  induction 1 as [w|w w' w'' Hs _ IH]; [done|].
  intros H. apply IH. by eapply reach_step.
Qed.

(** C8: [done] is monotonic.  From a world reached from construction in
    which [done] is true, every sequence of operations ([next],
    [handleResponse], [dispose], an [emit] by somebody else) leads to a
    world in which [done] is still true, the drain has emitted no further
    request, and the bound handler is not subscribed to the response
    event. *)
Theorem done_is_monotonic w w' :
  reachable w ->
  _done (drain w) = true ->
  steps w w' ->
  _done (drain w') = true
  ∧ requests_emitted w' = requests_emitted w
  ∧ bound_count w = 0
  ∧ bound_count w' = 0.
Proof.
  intros Hr Hd Hs.
  destruct (stays_done_steps (requests_emitted w) w w' Hs) as [Hd' Hn']; [by split|].
  split; [done|]. split; [done|]. split.
  - by apply (inv_done w (reachable_Inv w Hr)).
  - apply (inv_done w'); [|done]. apply reachable_Inv. by eapply reachable_steps.
Qed.

Lemma done_is_monotonic_witness :
  let w' := do_op 0 (OpHandleResponse (item "a")) (do_op 1 OpNext w_pending_disposed) in
  _done (drain w') = true
  ∧ requests_emitted w' = requests_emitted w_pending_disposed
  ∧ bound_count w_pending_disposed = 0
  ∧ bound_count w' = 0.
Proof.
  apply (done_is_monotonic w_pending_disposed).
  - apply reachable_w_pending_disposed.
  - reflexivity.
  - apply (steps_cons _ (do_op 1 OpNext w_pending_disposed)).
    + exists 1, OpNext. reflexivity.
    + apply (steps_cons _ (do_op 0 (OpHandleResponse (item "a")) (do_op 1 OpNext w_pending_disposed))).
      * exists 0, (OpHandleResponse (item "a")). reflexivity.
      * apply steps_refl.
Defined.

(** ** [dispose] and the pending holder *)

(** C9: [dispose()] sets [done], removes one subscription of the bound
    handler from the response event, and touches neither the holder
    reference nor any promise: no [resolve] or [reject] is called.  In a
    reachable world no subscription of the bound handler is left, and a
    second [dispose()] changes nothing in the drain, the emitter or the
    promises. *)
Theorem dispose_does_not_settle w :
  _done (drain (dispose w)) = true
  ∧ _current (drain (dispose w)) = _current (drain w)
  ∧ _waiting (drain (dispose w)) = _waiting (drain w)
  ∧ promises (dispose w) = promises w
  ∧ resolve_calls (dispose w) = resolve_calls w
  ∧ reject_calls (dispose w) = reject_calls w
  ∧ trace (dispose w) = trace w ++ [CallRemoveListener (_response (drain w))]
  ∧ listeners (_response (drain w)) (emitter (dispose w))
      = remove_last_bound (listeners (_response (drain w)) (emitter w))
  ∧ (reachable w ->
     bound_count (dispose w) = 0
     ∧ drain (dispose (dispose w)) = drain (dispose w)
     ∧ emitter (dispose (dispose w)) = emitter (dispose w)
     ∧ promises (dispose (dispose w)) = promises (dispose w)).
Proof.
  split; [done|]. split; [done|]. split; [done|]. split; [done|].
  split; [unfold resolve_calls; simpl; rewrite count_if_app; simpl; lia|].
  split; [unfold reject_calls; simpl; rewrite count_if_app; simpl; lia|].
  split; [done|].
  split; [simpl; apply listeners_removeListener_eq|].
  intros Hr. pose proof (inv_bound w (reachable_Inv w Hr)) as Hb.
  split; [rewrite bound_count_dispose; lia|].
  split; [done|]. split; [|done].
  simpl. apply removeListener_idem. exact Hb.
Qed.

Lemma dispose_does_not_settle_witness :
  _current (drain (dispose w_pending)) = Some 0
  ∧ promises (dispose w_pending) !! 0 = Some Pending
  ∧ bound_count (dispose w_pending) = 0
  ∧ emitter (dispose (dispose w_pending)) = emitter (dispose w_pending).
Proof.
  destruct (dispose_does_not_settle w_pending)
    as (_ & Hc & _ & Hp & _ & _ & _ & _ & Hr).
  destruct (Hr reachable_w_pending) as (Hb & _ & He & _).
  split; [rewrite Hc; reflexivity|].
  split; [rewrite Hp; reflexivity|].
  split; [exact Hb|exact He].
Defined.

(** ** A protocol violation changes nothing *)

(** C10: when the drain is not waiting, [handleResponse] throws and leaves
    the world exactly as it was: [done], the holder reference, the waiting
    flag, the subscriptions and the promises.  A [next()] issued afterwards
    emits its request as usual, and when its [emit] returned, so that it
    returned the promise of its holder, and no response has been handled
    yet, the response handled next settles that promise. *)
Theorem unexpected_response_changes_nothing w r :
  _waiting (drain w) = false ->
  (∃ e, handleResponse r w = Threw e w)
  ∧ apply_op 0 (OpHandleResponse r) w = Some w
  ∧ ∀ fuel p1 w1,
      _done (drain w) = false ->
      _current (drain w) = None ->
      next fuel w = Returned p1 w1 ->
      requests_emitted w1 = S (requests_emitted w)
      ∧ (is_Some (_current (drain w1)) ->
         p1 = PromiseOf (length (promises w)) ->
         ∀ r', ∃ w2,
           handleResponse r' w1 = Returned tt w2
           ∧ await p1 w2 =
               match get_done r' (responses w1) with
               | Yields _ => AwaitValue r'
               | Raises e' => AwaitThrow e'
               end).
Proof.
  intros Hw. split; [|split].
  - eexists. by apply handleResponse_not_waiting.
  - simpl. by rewrite handleResponse_not_waiting.
  - intros fuel p1 w1 Hd Hc Hn.
    split; [apply (next_idle_counts fuel w p1 w1 Hd Hc Hn)|].
    intros Hs -> r'.
    destruct (next_fresh fuel w _ w1 Hd Hc Hn Hs) as (_ & Hc1 & Hw1 & Hd1 & Hp1 & _).
    destruct (get_done r' (responses w1)) as [v|e'] eqn:E.
    + destruct (promises_handleResponse_resolves r' w1 _ v Hw1 Hc1 Hp1 E) as (w2 & H1 & H2 & _).
      exists w2. split; [done|]. simpl. by rewrite H2.
    + destruct (promises_handleResponse_rejects r' w1 _ e' Hw1 Hc1 Hp1 E) as (w2 & H1 & H2 & _).
      exists w2. split; [done|]. simpl. by rewrite H2.
Qed.

Lemma unexpected_response_changes_nothing_witness :
  (∃ e, handleResponse empty_object w_fresh = Threw e w_fresh)
  ∧ apply_op 0 (OpHandleResponse empty_object) w_fresh = Some w_fresh
  ∧ requests_emitted w_pending = S (requests_emitted w_fresh)
  ∧ ∃ w2,
      handleResponse empty_object w_pending = Returned tt w2
      ∧ await (PromiseOf 0) w2 = AwaitValue empty_object.
Proof.
  destruct (unexpected_response_changes_nothing w_fresh empty_object eq_refl)
    as (H1 & H2 & H3).
  split; [exact H1|]. split; [exact H2|].
  destruct (H3 1 (PromiseOf 0) w_pending) as [Hreq Hcycle]; [vm_compute; reflexivity..|].
  split; [exact Hreq|].
  apply (Hcycle (ex_intro _ 0 eq_refl) eq_refl empty_object).
Defined.

(** ** The expectations of the test suite, replayed on the model *)

Example test_looks_right :
  _done (drain w_fresh) = false
  ∧ listenerCount "testem:next-module-response" (emitter w_fresh) = 1
  ∧ requests_emitted w_fresh = 0.
Proof. repeat split; reflexivity. Qed.

Example test_errors_if_disposed :
  await (ResolvedWith done_true_null) w_disposed = AwaitValue (PObject (DoneData (VBool true)) VNull)
  ∧ next 0 w_disposed = Returned (ResolvedWith done_true_null) w_disposed.
Proof. split; reflexivity. Qed.

Example test_drains_async_error :
  match asyncDrain 4 2
          (new_Drain {[ "testem:next-module-request" :=
                          [failing_responder (Error "boom!") "testem:next-module-response"] ]}
                     abc test_options) with
  | Failed e w' => e = Error "boom!" ∧ responses w' = [VStr "c"] ∧ _done (drain w') = false
  | _ => False
  end.
Proof. vm_compute. repeat split. Qed.

Example test_dispose_works :
  _done (drain w_disposed) = true
  ∧ listenerCount "testem:next-module-response" (emitter w_disposed) = 0.
Proof. split; reflexivity. Qed.

Example test_throws_when_not_waiting :
  world_of (handleResponse empty_object w_fresh) = Some w_fresh
  ∧ match handleResponse empty_object w_pending with
    | Returned _ w' =>
        match emit 1 ByOther "testem:next-module-response" empty_object w' with
        | Threw e _ =>
            message_of e =
              "<Drain (request: testem:next-module-request response: testem:next-module-response)> Was not expecting a response, but got a response"
        | _ => False
        end
    | _ => False
    end.
Proof. split; vm_compute; reflexivity. Qed.

(** A request event that is also the response event answers itself with
    [undefined]: the pull is rejected with the TypeError of reading [done]. *)
Example same_event_for_both :
  match next 1 (new_Drain ∅ [] {| request := "ping"; response := "ping" |}) with
  | Returned p w' =>
      p = PromiseOf 0
      ∧ promises w' !! 0
          = Some (Rejected (TypeError "Cannot read properties of undefined (reading 'done')"))
      ∧ _current (drain w') = None
  | _ => False
  end.
Proof. vm_compute. repeat split. Qed.

(** * Further properties of the code *)

(** ** Properties kept by every operation *)

Section StepInvariant.
Variable P : World -> Prop.

Hypothesis P_log : ∀ ev p w, P w -> P (log (CallEmit ByOther ev p) w).
Hypothesis P_responses : ∀ rs w, P w -> P (set_responses rs w).
Hypothesis P_handle : ∀ r w, P w -> post P anything (handleResponse r w).
Hypothesis P_dispose : ∀ w, P w -> P (dispose w).
Hypothesis P_requesting :
  ∀ w, P w -> _done (drain w) = false -> _current (drain w) = None -> P (requesting w).

Lemma next_preserves fuel w :
  P w ->
  match next fuel w with
  | Returned _ w' | Threw _ w' => P w'
  | Diverged => True
  end.
Proof.
  intros HP. destruct (_done (drain w)) eqn:Hd; [unfold next; by rewrite Hd|].
  destruct (_current (drain w)) as [h|] eqn:Hc; [unfold next; by rewrite Hd, Hc|].
  destruct fuel as [|fuel]; [unfold next; by rewrite Hd, Hc|].
  rewrite next_idle_unfold by done.
  pose proof (call_all_post P anything P_responses P_handle (emit fuel ByOther)
                (emit_other_post P anything P_log P_responses P_handle fuel)
                (listeners (_request (drain w)) (emitter w)) PUndefined (requesting w)
                (P_requesting w HP Hd Hc)) as H.
  destruct (call_all _ _ _ _) as [[] w'|e w'|]; simpl in *; tauto.
Qed.

Lemma step_preserves w w' : P w -> step w w' -> P w'.
Proof.
  intros HP (fuel & o & Hop). destruct o as [|r| |ev p]; simpl in Hop.
  - pose proof (next_preserves fuel w HP) as H.
    destruct (next fuel w); simpl in *; [| |done]; by injection Hop as <-.
  - pose proof (P_handle r w HP) as H.
    destruct (handleResponse r w); simpl in *; [| |done]; injection Hop as <-; tauto.
  - injection Hop as <-. by apply P_dispose.
  - pose proof (emit_post P anything P_log P_responses P_handle fuel ByOther ev p w
                  (P_log ev p w HP)) as H.
    destruct (emit fuel ByOther ev p w); simpl in *; [| |done]; injection Hop as <-; tauto.
Qed.

Lemma steps_preserve w w' : steps w w' -> P w -> P w'.
Proof.
  induction 1 as [w|w w' w'' Hs _ IH]; [done|].
  intros HP. apply IH. by eapply step_preserves.
Qed.

Lemma reachable_preserve :
  (∀ em rs options, P (new_Drain em rs options)) -> ∀ w, reachable w -> P w.
Proof.
  intros Hnew w. induction 1 as [em rs options|w w' _ IH Hs]; [apply Hnew|].
  by eapply step_preserves.
Qed.
End StepInvariant.

(** ** Requests, holders and settlements *)

Lemma count_if_insert_pending h s ps :
  ps !! h = Some Pending ->
  is_pending s = false ->
  S (count_if is_pending (<[h := s]> ps)) = count_if is_pending ps.
Proof.
  revert h. induction ps as [|x ps IH]; intros [|h] Hl Hs; simpl in *; try done.
  - injection Hl as ->. simpl. by rewrite Hs.
  - specialize (IH h Hl Hs). destruct (is_pending x); lia.
Qed.

Lemma pending_count_settle h s ps :
  ps !! h = Some Pending ->
  is_pending s = false ->
  S (count_if is_pending (settle h s ps)) = count_if is_pending ps.
Proof. intros Hl Hs. unfold settle. rewrite Hl. by apply count_if_insert_pending. Qed.

Lemma Accounts_log_other ev p w : Accounts w -> Accounts (log (CallEmit ByOther ev p) w).
Proof.
  intros [H1 H2 H3]. unfold requests_emitted, resolve_calls, reject_calls in *.
  constructor; unfold requests_emitted, resolve_calls, reject_calls, pending_count, outstanding in *;
    simpl; rewrite ?count_if_app; simpl; lia.
Qed.

Lemma Accounts_set_responses rs w : Accounts w -> Accounts (set_responses rs w).
Proof. intros [H1 H2 H3]. by constructor. Qed.

Lemma Accounts_dispose w : Accounts w -> Accounts (dispose w).
Proof.
  intros [H1 H2 H3].
  constructor; unfold requests_emitted, resolve_calls, reject_calls, pending_count, outstanding in *;
    simpl; rewrite ?count_if_app; simpl; lia.
Qed.

Lemma balanced_handleResponse r w :
  balanced w -> post balanced anything (handleResponse r w).
Proof.
  intros [HI HA]. pose proof (Inv_handleResponse r w HI) as HI'.
  destruct (_waiting (drain w)) eqn:Hw.
  - destruct (proj1 (inv_waiting w HI) Hw) as [h Hc].
    pose proof (inv_pending w HI h Hc) as Hp.
    destruct HA as [H1 H2 H3].
    unfold requests_emitted, resolve_calls, reject_calls, pending_count, outstanding in *.
    rewrite Hw in *.
    destruct (get_done r (responses w)) as [v|e] eqn:Hd.
    + rewrite (handleResponse_resolves r w h v Hw Hc Hd) in *. simpl in *.
      split; [exact HI'|].
      pose proof (pending_count_settle h (Fulfilled r) (promises w) Hp eq_refl) as Hs.
      pose proof (length_insert (promises w) h (Fulfilled r)) as Hlen.
      unfold settle in *. rewrite Hp in *.
      constructor; unfold requests_emitted, resolve_calls, reject_calls, pending_count, outstanding;
        destruct (truthy v); simpl; unfold settle; simpl; rewrite ?Hp, ?count_if_app; simpl; lia.
    + rewrite (handleResponse_rejects r w h e Hw Hc Hd) in *. simpl in *.
      split; [exact HI'|].
      pose proof (pending_count_settle h (Rejected e) (promises w) Hp eq_refl) as Hs.
      pose proof (length_insert (promises w) h (Rejected e)) as Hlen.
      unfold settle in *. rewrite Hp in *.
      constructor; unfold requests_emitted, resolve_calls, reject_calls, pending_count, outstanding;
        simpl; unfold settle; simpl; rewrite ?Hp, ?count_if_app; simpl; lia.
  - rewrite handleResponse_not_waiting in * by done. simpl in *.
    split; [|done]. split; [tauto|done].
Qed.

Lemma Inv_requesting w :
  Inv w -> _done (drain w) = false -> _current (drain w) = None -> Inv (requesting w).
Proof.
  intros [H1 H2 H3 H4] Hd Hc. constructor; simpl.
  - split; [by eexists|done].
  - intros h [= <-]. by apply list_lookup_middle.
  - exact H3.
  - by rewrite Hd.
Qed.

Lemma balanced_requesting w :
  balanced w -> _done (drain w) = false -> _current (drain w) = None -> balanced (requesting w).
Proof.
  intros [HI [H1 H2 H3]] Hd Hc. split; [by apply Inv_requesting|].
  assert (_waiting (drain w) = false) as Hw.
  { destruct (_waiting (drain w)) eqn:E; [|done].
    destruct (proj1 (inv_waiting w HI) E) as [h Hh]. congruence. }
  unfold requests_emitted, resolve_calls, reject_calls, pending_count, outstanding in *.
  rewrite Hw in *.
  constructor; unfold requests_emitted, resolve_calls, reject_calls, pending_count, outstanding;
    simpl; rewrite ?count_if_app, ?length_app; simpl; lia.
Qed.

Lemma balanced_reachable w : reachable w -> balanced w.
Proof.
  apply reachable_preserve.
  - intros ev p w' [HI HA]. split; [by apply Inv_log|by apply Accounts_log_other].
  - intros rs w' [HI HA]. split; [by apply Inv_set_responses|by apply Accounts_set_responses].
  - apply balanced_handleResponse.
  - intros w' [HI HA]. split; [by apply Inv_dispose|by apply Accounts_dispose].
  - apply balanced_requesting.
  - intros em rs options. split; [apply Inv_new|]. by constructor.
Qed.

(** X1: in every world reached from construction, the requests the drain
    emitted, the holders it created and the calls of [resolve] and [reject]
    match one for one: as many holders as requests, as many settlements as
    requests but for the one still waited for, and exactly that one promise
    pending.  So at most one pull is outstanding at any time. *)
Theorem requests_and_settlements_balance w :
  reachable w ->
  requests_emitted w = length (promises w)
  ∧ resolve_calls w + reject_calls w + outstanding w = requests_emitted w
  ∧ pending_count w = outstanding w
  ∧ pending_count w <= 1.
Proof.
  intros Hr. destruct (balanced_reachable w Hr) as [_ [H1 H2 H3]].
  split; [done|]. split; [done|]. split; [done|].
  rewrite H3. unfold outstanding. destruct (_waiting (drain w)); lia.
Qed.

Lemma requests_and_settlements_balance_witness :
  requests_emitted w_pending = length (promises w_pending)
  ∧ resolve_calls w_pending + reject_calls w_pending + outstanding w_pending
      = requests_emitted w_pending
  ∧ pending_count w_pending = outstanding w_pending
  ∧ pending_count w_pending <= 1.
Proof. apply (requests_and_settlements_balance w_pending). apply reachable_w_pending. Defined.

(** ** Subscribed exactly while not done *)

Lemma bound_count_handleResponse r w :
  (_done (drain w) = false -> bound_count w = 1) ->
  post (fun w' => _done (drain w') = false -> bound_count w' = 1) anything
       (handleResponse r w).
Proof.
  destruct w as [[rq rp dn cur wt] em ps rs tr].
  unfold handleResponse, call_resolve, call_reject, anything, bound_count. simpl.
  intros H. destruct wt; simpl; [|done].
  destruct (get_done r rs) as [v|e]; [destruct (truthy v)|]; simpl;
    destruct cur; simpl; try done.
Qed.

Lemma subscribed_while_not_done w :
  reachable w -> _done (drain w) = false -> bound_count w = 1.
Proof.
  revert w.
  apply (reachable_preserve (fun w => _done (drain w) = false -> bound_count w = 1)); try done.
  - apply bound_count_handleResponse.
  - intros em rs options _. apply bound_count_new.
Qed.

(** X2: in every world reached from construction, the drain waits for a
    response exactly when it holds a pending holder, the promise of that
    holder is still pending, and the bound handler is subscribed to the
    response event once while [done] is false and not at all once it is
    true. *)
Theorem waiting_holder_subscription w :
  reachable w ->
  (_waiting (drain w) = true ↔ is_Some (_current (drain w)))
  ∧ (∀ h, _current (drain w) = Some h -> promises w !! h = Some Pending)
  ∧ bound_count w = (if _done (drain w) then 0 else 1).
Proof.
  intros Hr. pose proof (reachable_Inv w Hr) as HI.
  split; [apply (inv_waiting w HI)|]. split; [apply (inv_pending w HI)|].
  destruct (_done (drain w)) eqn:Hd.
  - by apply (inv_done w HI).
  - by apply subscribed_while_not_done.
Qed.

Lemma waiting_holder_subscription_witness :
  (_waiting (drain w_pending) = true ↔ is_Some (_current (drain w_pending)))
  ∧ (∀ h, _current (drain w_pending) = Some h -> promises w_pending !! h = Some Pending)
  ∧ bound_count w_pending = (if _done (drain w_pending) then 0 else 1).
Proof. apply (waiting_holder_subscription w_pending). apply reachable_w_pending. Defined.

(** ** What no operation touches *)

Lemma names_kept_handleResponse a b r w :
  _request (drain w) = a ∧ _response (drain w) = b ->
  post (fun w' => _request (drain w') = a ∧ _response (drain w') = b) anything
       (handleResponse r w).
Proof.
  destruct w as [[rq rp dn cur wt] em ps rs tr].
  unfold handleResponse, call_resolve, call_reject, anything. simpl.
  intros H. destruct wt; simpl; [|done].
  destruct (get_done r rs) as [v|e]; [destruct (truthy v)|]; simpl;
    destruct cur; simpl; done.
Qed.

(** X4: the request and response event names chosen at construction, and
    with them the label [toString()] puts in error messages, are the same
    after every sequence of operations. *)
Theorem event_names_are_fixed w w' :
  steps w w' ->
  _request (drain w') = _request (drain w)
  ∧ _response (drain w') = _response (drain w)
  ∧ toString (drain w') = toString (drain w).
Proof.
  intros Hst.
  assert (_request (drain w') = _request (drain w)
          ∧ _response (drain w') = _response (drain w)) as [H1 H2].
  { apply (steps_preserve
             (fun w' => _request (drain w') = _request (drain w)
                        ∧ _response (drain w') = _response (drain w)))
      with (w := w); try done.
    intros r w0. apply names_kept_handleResponse. }
  split; [done|]. split; [done|]. unfold toString. by rewrite H1, H2.
Qed.

Lemma event_names_are_fixed_witness :
  _request (drain w_answered_again) = _request (drain w_answered)
  ∧ _response (drain w_answered_again) = _response (drain w_answered)
  ∧ toString (drain w_answered_again) = toString (drain w_answered).
Proof.
  apply (event_names_are_fixed w_answered w_answered_again).
  apply (steps_cons _ w_pending_again).
  - exists 1, OpNext. vm_compute. reflexivity.
  - apply (steps_cons _ w_answered_again); [|apply steps_refl].
    exists 0, (OpHandleResponse (item "b")). vm_compute. reflexivity.
Defined.

(** ** The listeners of others *)

Lemma externals_of_app ls1 ls2 :
  externals_of (ls1 ++ ls2) = externals_of ls1 ++ externals_of ls2.
Proof.
  induction ls1 as [|[|f] ls1 IH]; simpl; [done|done|]. by rewrite IH.
Qed.

Lemma externals_of_reverse ls : externals_of (reverse ls) = reverse (externals_of ls).
Proof.
  induction ls as [|[|f] ls IH]; [done| |].
  - rewrite reverse_cons, externals_of_app, IH. simpl. by rewrite app_nil_r.
  - simpl. rewrite !reverse_cons, externals_of_app, IH. done.
Qed.

Lemma externals_of_remove_first_bound ls :
  externals_of (remove_first_bound ls) = externals_of ls.
Proof.
  induction ls as [|[|f] ls IH]; simpl; [done|done|]. by rewrite IH.
Qed.

Lemma externals_of_remove_last_bound ls :
  externals_of (remove_last_bound ls) = externals_of ls.
Proof.
  unfold remove_last_bound.
  rewrite externals_of_reverse, externals_of_remove_first_bound, externals_of_reverse.
  apply reverse_involutive.
Qed.

Lemma externals_of_fmap_External (fs : list external) :
  externals_of (External <$> fs) = fs.
Proof. induction fs as [|f fs IH]; [done|]. simpl. f_equal. exact IH. Qed.

Lemma externals_of_removeListener ev ev' (em : gmap string (list listener)) :
  externals_of (listeners ev' (removeListener ev em)) = externals_of (listeners ev' em).
Proof.
  destruct (decide (ev = ev')) as [->|Hne].
  - by rewrite listeners_removeListener_eq, externals_of_remove_last_bound.
  - by rewrite listeners_removeListener_ne.
Qed.

Lemma externals_kept_handleResponse (F : string -> list external) r w :
  (∀ ev, externals_of (listeners ev (emitter w)) = F ev) ->
  post (fun w' => ∀ ev, externals_of (listeners ev (emitter w')) = F ev) anything
       (handleResponse r w).
Proof.
  destruct w as [[rq rp dn cur wt] em ps rs tr].
  unfold handleResponse, call_resolve, call_reject, anything. simpl.
  intros H. destruct wt; simpl; [|done].
  destruct (get_done r rs) as [v|e]; [destruct (truthy v)|]; simpl;
    destruct cur; simpl; try done; try (split; [|done]);
    intros ev; by rewrite externals_of_removeListener.
Qed.

(** X5: the drain never touches the listeners of others.  Construction
    leaves every listener array as it was but for its own handler, and
    after every sequence of operations each event has the same external
    listeners, in the same order. *)
Theorem external_listeners_are_kept :
  (∀ em rs options ev,
     externals_of (listeners ev (emitter (new_Drain em rs options))) = default [] (em !! ev))
  ∧ (∀ w w', steps w w' ->
       ∀ ev, externals_of (listeners ev (emitter w')) = externals_of (listeners ev (emitter w))).
Proof.
  split.
  - intros em rs options ev. simpl.
    assert (externals_of (listeners ev (fmap (M := list) External <$> em)) = default [] (em !! ev))
      as Hbase.
    { unfold listeners. rewrite lookup_fmap.
      destruct (em !! ev) as [fs|]; [apply externals_of_fmap_External|done]. }
    destruct (decide (response options = ev)) as [<-|Hne].
    + rewrite listeners_on_eq, externals_of_app, Hbase. simpl. by rewrite app_nil_r.
    + by rewrite listeners_on_ne.
  - intros w w' Hst.
    apply (steps_preserve
             (fun w' => ∀ ev, externals_of (listeners ev (emitter w'))
                              = externals_of (listeners ev (emitter w))))
      with (w := w); try done.
    + intros r w0. apply externals_kept_handleResponse.
    + intros w0 H ev. simpl. by rewrite externals_of_removeListener.
Qed.

Lemma external_listeners_are_kept_witness :
  externals_of (listeners "testem:next-module-response" (emitter w_answered_again))
    = externals_of (listeners "testem:next-module-response" (emitter w_answered)).
Proof.
  destruct external_listeners_are_kept as [_ H].
  apply (H w_answered w_answered_again).
  apply (steps_cons _ w_pending_again).
  - exists 1, OpNext. vm_compute. reflexivity.
  - apply (steps_cons _ w_answered_again); [|apply steps_refl].
    exists 0, (OpHandleResponse (item "b")). vm_compute. reflexivity.
Defined.

(** ** Draining any array *)

Lemma listeners_w_responding req resp rs :
  req ≠ resp ->
  let em := emitter (w_responding req resp rs) in
  listeners req em = [External (responder resp)]
  ∧ listeners resp em = [BoundHandleResponse]
  ∧ listenerCount resp (removeListener resp em) = 0.
Proof. intros Hne. apply (listeners_w_responder req resp Hne). Qed.

(** X6: in front of the responder of the happy-path test, for every array
    of values and every two distinct event names that are none of the names
    the emitter treats specially, the consumer loop ends with exactly the
    values of the array, in order; the drain is then done and unsubscribed,
    and a second run of the loop ends at once with no value and the world
    untouched. *)
Theorem asyncDrain_yields_the_array req resp rs n k :
  ordinary req ->
  ordinary resp ->
  req ≠ resp ->
  ∃ w', asyncDrain (S (length rs) + n) (2 + k) (w_responding req resp rs) = Finished rs w'
        ∧ _done (drain w') = true
        ∧ listenerCount resp (emitter w') = 0
        ∧ asyncDrain (S n) k w' = Finished [] w'.
Proof.
  intros _ _ Hne.
  destruct (listeners_w_responding req resp rs Hne) as (Hreq & Hresp & Hcount).
  destruct (asyncDrain_from_responder req resp _ k Hreq Hresp rs [] [] n
              (w_responding req resp rs)) as (w' & Hdr & Hd & He).
  { by repeat split. }
  exists w'. split; [exact Hdr|]. split; [exact Hd|]. split; [by rewrite He|].
  unfold asyncDrain. cbn [asyncDrain_from]. unfold next. rewrite Hd. reflexivity.
Qed.

Lemma asyncDrain_yields_the_array_witness :
  ∃ w', asyncDrain 3 2 (w_responding "req" "res" [VNum 1; VNull]) = Finished [VNum 1; VNull] w'
        ∧ _done (drain w') = true
        ∧ listenerCount "res" (emitter w') = 0
        ∧ asyncDrain 1 0 w' = Finished [] w'.
Proof.
  apply (asyncDrain_yields_the_array "req" "res" [VNum 1; VNull] 0 0).
  - repeat split; discriminate.
  - repeat split; discriminate.
  - discriminate.
Defined.

(** ** Draining in front of a responder whose [done] raises *)

Lemma listeners_single req resp (f : external) rs :
  req ≠ resp ->
  let em := emitter (new_Drain {[ req := [f] ]} rs {| request := req; response := resp |}) in
  listeners req em = [External f]
  ∧ listeners resp em = [BoundHandleResponse].
Proof.
  intros Hne em. unfold em, new_Drain. simpl.
  rewrite map_fmap_singleton. simpl.
  assert (listeners resp ({[req := [External f]]} : gmap string (list listener)) = []) as Hnone.
  { unfold listeners. by rewrite lookup_singleton_ne. }
  split.
  - rewrite listeners_on_ne by done. unfold listeners. by rewrite lookup_singleton_eq.
  - rewrite listeners_on_eq. by rewrite Hnone.
Qed.

Lemma next_round_failing_item error req resp em ps x a b rs k w :
  ready req resp em ps (x :: a :: b :: rs) w ->
  listeners req em = [External (failing_responder error resp)] ->
  listeners resp em = [BoundHandleResponse] ->
  ∃ w' p, next (2 + k) w = Returned (PromiseOf (length ps)) w'
          ∧ ready req resp em (ps ++ [Fulfilled p]) (a :: b :: rs) w'
          ∧ get_done p (a :: b :: rs) = Yields (VBool false)
          ∧ get_value p = Yields x.
Proof.
  destruct w as [[rq rp dn cur wt] em0 ps0 rs0 tr].
  intros (H1 & H2 & H3 & H4 & H5 & H6 & H7) Hreq Hresp. simpl in *. subst.
  unfold next, _makeNextRequest. simpl. rewrite Hreq. simpl. rewrite Hresp. simpl.
  eexists. eexists. split; [reflexivity|].
  unfold ready. simpl. rewrite settle_last. done.
Qed.

Lemma next_round_failing_raise error req resp em ps x y k w :
  ready req resp em ps [x; y] w ->
  listeners req em = [External (failing_responder error resp)] ->
  listeners resp em = [BoundHandleResponse] ->
  ∃ w', next (2 + k) w = Returned (PromiseOf (length ps)) w'
        ∧ promises w' = ps ++ [Rejected error]
        ∧ responses w' = [y]
        ∧ _done (drain w') = false
        ∧ _current (drain w') = None
        ∧ emitter w' = em.
Proof.
  destruct w as [[rq rp dn cur wt] em0 ps0 rs0 tr].
  intros (H1 & H2 & H3 & H4 & H5 & H6 & H7) Hreq Hresp. simpl in *. subst.
  unfold next, _makeNextRequest. simpl. rewrite Hreq. simpl. rewrite Hresp. simpl.
  eexists. split; [reflexivity|].
  simpl. rewrite settle_last. done.
Qed.

Lemma asyncDrain_from_failing error req resp em k x y :
  listeners req em = [External (failing_responder error resp)] ->
  listeners resp em = [BoundHandleResponse] ->
  ∀ pre ps values n w,
    ready req resp em ps (pre ++ [x; y]) w ->
    ∃ w', asyncDrain_from (S (length pre) + n) (2 + k) values w = Failed error w'
          ∧ responses w' = [y]
          ∧ _done (drain w') = false
          ∧ _current (drain w') = None
          ∧ emitter w' = em
          ∧ length (promises w') = length ps + S (length pre).
Proof.
  intros Hreq Hresp pre. induction pre as [|a pre IH]; intros ps values n w Hw.
  - destruct (next_round_failing_raise error req resp em ps x y k w Hw Hreq Hresp)
      as (w' & Hn & Hp & Hr & Hd & Hc & He).
    exists w'. split; [|by rewrite Hp, length_app].
    change (S (length []) + n) with (S n).
    cbn [asyncDrain_from]. rewrite Hn. cbn [await]. rewrite Hp.
    rewrite list_lookup_middle by done. done.
  - assert (∃ b c rest, pre ++ [x; y] = b :: c :: rest) as (b & c & rest & Hshape).
    { destruct pre as [|b [|c pre]]; simpl; eauto. }
    simpl in Hw. rewrite Hshape in Hw.
    destruct (next_round_failing_item error req resp em ps a b c rest k w Hw Hreq Hresp)
      as (w' & p & Hn & Hw' & Hdone & Hval).
    rewrite <- Hshape in Hw'.
    destruct (IH _ (values ++ [a]) n w' Hw') as (w'' & Hdr & Hr & Hd & Hc & He & Hlen).
    exists w''. split; [|rewrite Hlen, length_app; simpl; repeat split; try done; lia].
    change (S (length (a :: pre)) + n) with (S (S (length pre) + n)).
    cbn [asyncDrain_from]. rewrite Hn. cbn [await].
    destruct Hw' as (_ & _ & _ & _ & _ & Hp & Hrs). rewrite Hp.
    rewrite list_lookup_middle by done. rewrite Hrs, Hshape, Hdone.
    cbn [truthy]. rewrite Hval. exact Hdr.
Qed.

(** X7: in front of the responder of the error test, whose [done] getter
    raises when one value is left, for every array of at least two values
    and every two distinct event names that are none of the names the
    emitter treats specially, the consumer loop fails with exactly the
    error raised, after one pull per value but the last.  The last value is
    still in the array and the drain is neither done nor unsubscribed nor
    waiting. *)
Theorem asyncDrain_fails_with_the_error error req resp pre x y n k :
  ordinary req ->
  ordinary resp ->
  req ≠ resp ->
  ∃ w', asyncDrain (S (length pre) + n) (2 + k) (w_failing error req resp (pre ++ [x; y]))
          = Failed error w'
        ∧ responses w' = [y]
        ∧ length (promises w') = S (length pre)
        ∧ _done (drain w') = false
        ∧ _current (drain w') = None
        ∧ listenerCount resp (emitter w') = 1.
Proof.
  intros _ _ Hne.
  destruct (listeners_single req resp (failing_responder error resp) (pre ++ [x; y]) Hne)
    as (Hreq & Hresp).
  destruct (asyncDrain_from_failing error req resp _ k x y Hreq Hresp pre [] [] n
              (w_failing error req resp (pre ++ [x; y])))
    as (w' & Hdr & Hr & Hd & Hc & He & Hlen).
  { by repeat split. }
  exists w'. split; [exact Hdr|]. split; [exact Hr|]. split; [exact Hlen|].
  split; [exact Hd|]. split; [exact Hc|].
  unfold listenerCount. rewrite He. unfold w_failing. by rewrite Hresp.
Qed.

Lemma asyncDrain_fails_with_the_error_witness :
  ∃ w', asyncDrain 2 2 (w_failing (Error "boom!") "req" "res" ([VStr "a"] ++ [VStr "b"; VStr "c"]))
          = Failed (Error "boom!") w'
        ∧ responses w' = [VStr "c"]
        ∧ length (promises w') = 2
        ∧ _done (drain w') = false
        ∧ _current (drain w') = None
        ∧ listenerCount "res" (emitter w') = 1.
Proof.
  apply (asyncDrain_fails_with_the_error (Error "boom!") "req" "res" [VStr "a"] (VStr "b") (VStr "c") 0 0).
  - repeat split; discriminate.
  - repeat split; discriminate.
  - discriminate.
Defined.

(** ** A response that is not the last *)

(** X8: when a response whose [done] is falsy ([false], [undefined],
    [null], [0] or the empty string) is handled while the drain waits, the
    promise of the holder is fulfilled with the response object and the
    drain is not disposed: [done] and every subscription are as before,
    nothing is removed from the bus, and the drain is idle again. *)
Theorem handleResponse_not_done_keeps_going w r v :
  reachable w ->
  _waiting (drain w) = true ->
  get_done r (responses w) = Yields v ->
  truthy v = false ->
  ∃ h w',
    _current (drain w) = Some h
    ∧ handleResponse r w = Returned tt w'
    ∧ promises w' !! h = Some (Fulfilled r)
    ∧ _done (drain w') = _done (drain w)
    ∧ emitter w' = emitter w
    ∧ trace w' = trace w ++ [CallResolve h r]
    ∧ _current (drain w') = None
    ∧ _waiting (drain w') = false.
Proof.
  intros Hr Hw Hd Hv. destruct (reachable_waiting w Hr Hw) as (h & Hc & Hp).
  exists h. eexists. split; [done|].
  split; [rewrite (handleResponse_resolves r w h v Hw Hc Hd); by rewrite Hv|].
  simpl. split; [by apply settle_pending|]. done.
Qed.

Lemma handleResponse_not_done_keeps_going_witness :
  ∃ h w',
    _current (drain w_pending) = Some h
    ∧ handleResponse empty_object w_pending = Returned tt w'
    ∧ promises w' !! h = Some (Fulfilled empty_object)
    ∧ _done (drain w') = _done (drain w_pending)
    ∧ emitter w' = emitter w_pending
    ∧ trace w' = trace w_pending ++ [CallResolve h empty_object]
    ∧ _current (drain w') = None
    ∧ _waiting (drain w') = false.
Proof.
  apply (handleResponse_not_done_keeps_going w_pending empty_object VUndefined).
  - apply reachable_w_pending.
  - reflexivity.
  - reflexivity.
  - reflexivity.
Defined.

(** ** Bus traffic after disposal *)

Lemma untouched_refl w : untouched w w.
Proof. by repeat split. Qed.

Lemma untouched_trans w1 w2 w3 : untouched w1 w2 -> untouched w2 w3 -> untouched w1 w3.
Proof. intros (H1 & H2 & H3) (H4 & H5 & H6). repeat split; congruence. Qed.

Lemma bound_only_handleResponse r w :
  bound_only_on_response w -> post bound_only_on_response anything (handleResponse r w).
Proof.
  destruct w as [[rq rp dn cur wt] em ps rs tr].
  unfold handleResponse, call_resolve, call_reject, anything, bound_only_on_response. simpl.
  intros H. destruct wt; simpl; [|done].
  destruct (get_done r rs) as [v|e]; [destruct (truthy v)|]; simpl;
    destruct cur; simpl; try done; try (split; [|done]);
    intros ev Hne; rewrite listeners_removeListener_ne by done; by apply H.
Qed.

Lemma bound_only_reachable w : reachable w -> bound_only_on_response w.
Proof.
  apply reachable_preserve; try done.
  - apply bound_only_handleResponse.
  - intros w0 H ev Hne. simpl in *. rewrite listeners_removeListener_ne by done. by apply H.
  - intros em rs options ev Hne. simpl in *.
    rewrite listeners_on_ne by done. apply listeners_fmap_External.
Qed.

Lemma unheard_emit_all w emit_rec :
  (∀ ev p w1, untouched w w1 -> unheard_outcome w1 (emit_rec ev p w1)) ->
  ∀ outs w1, untouched w w1 -> unheard_outcome w (emit_all emit_rec outs w1).
Proof.
  intros Hrec outs. induction outs as [|[ev p] outs IH]; intros w1 Hu; simpl; [done|].
  specialize (Hrec ev p w1 Hu).
  destruct (emit_rec ev p w1) as [[] w2|e w2|]; simpl in *; [|done|done].
  apply IH. by eapply untouched_trans.
Qed.

Lemma unheard_call_all w emit_rec :
  (∀ ev p w1, untouched w w1 -> unheard_outcome w1 (emit_rec ev p w1)) ->
  ∀ ls p w1, untouched w w1 -> count_if is_bound ls = 0 ->
    unheard_outcome w (call_all (call_listener emit_rec) ls p w1).
Proof.
  intros Hrec ls p. induction ls as [|l ls IH]; intros w1 Hu Hls; simpl; [done|].
  destruct l as [|f]; simpl in *; [done|].
  destruct (f p (responses w1)) as [rs outs].
  pose proof (unheard_emit_all w emit_rec Hrec outs (set_responses rs w1)) as H.
  destruct (emit_all emit_rec outs (set_responses rs w1)) as [[] w2|e w2|]; simpl in *.
  - apply IH; [|done]. apply H. destruct Hu as (H1 & H2 & H3). by repeat split.
  - apply H. destruct Hu as (H1 & H2 & H3). by repeat split.
  - done.
Qed.

Lemma unheard_emit fuel :
  ∀ who ev p w,
    (∀ ev', count_if is_bound (listeners ev' (emitter w)) = 0) ->
    unheard_outcome w (emit fuel who ev p w).
Proof.
  induction fuel as [|fuel IH]; intros who ev p w Hnone; simpl; [done|].
  apply unheard_call_all; [|by repeat split|apply Hnone].
  intros ev' p' w1 (_ & He & _). apply IH. intros ev''. rewrite He. apply Hnone.
Qed.

(** X11: once a drain reached from construction is done, nothing emitted
    on the bus reaches it: whether an [emit] on any event returns or
    throws, the drain, the subscriptions and the promises are as they were.
    In particular a pull that was outstanding when the consumer disposed
    stays pending through all later bus traffic. *)
Theorem done_drain_hears_nothing fuel who ev p w :
  reachable w ->
  _done (drain w) = true ->
  match emit fuel who ev p w with
  | Returned _ w' | Threw _ w' =>
      untouched w w'
      ∧ ∀ h, _current (drain w) = Some h ->
             _current (drain w') = Some h ∧ promises w' !! h = Some Pending
  | Diverged => True
  end.
Proof.
  intros Hr Hd. pose proof (reachable_Inv w Hr) as HI.
  assert (∀ ev', count_if is_bound (listeners ev' (emitter w)) = 0) as Hnone.
  { intros ev'. destruct (decide (ev' = _response (drain w))) as [->|Hne].
    - apply (inv_done w HI Hd).
    - by apply bound_only_reachable. }
  pose proof (unheard_emit fuel who ev p w Hnone) as H.
  destruct (emit fuel who ev p w) as [[] w'|e w'|]; simpl in *; [|done|done].
  split; [done|]. intros h Hc. destruct H as (H1 & _ & H3). rewrite H1, H3.
  split; [done|]. by apply (inv_pending w HI).
Qed.

Lemma done_drain_hears_nothing_witness :
  match emit 1 ByOther "testem:next-module-response" (item "a") w_pending_disposed with
  | Returned _ w' | Threw _ w' =>
      untouched w_pending_disposed w'
      ∧ ∀ h, _current (drain w_pending_disposed) = Some h ->
             _current (drain w') = Some h ∧ promises w' !! h = Some Pending
  | Diverged => True
  end
  ∧ world_of (emit 1 ByOther "testem:next-module-response" (item "a") w_pending_disposed) ≠ None
  ∧ _current (drain w_pending_disposed) = Some 0.
Proof.
  split; [|split].
  - apply (done_drain_hears_nothing 1 ByOther "testem:next-module-response" (item "a")
             w_pending_disposed).
    + apply reachable_w_pending_disposed.
    + vm_compute. reflexivity.
  - vm_compute. discriminate.
  - vm_compute. reflexivity.
Defined.

(** ** A request nobody answers *)

(** X12: when nobody listens to the request event, and that event is not
    [error], [next()] on an idle drain emits one request and returns the
    promise of a new holder that stays pending: the drain now waits, an
    [await] on the promise never resumes, and the consumer loop is
    suspended on its first pull. *)
Theorem unanswered_request_suspends w n k :
  _done (drain w) = false ->
  _current (drain w) = None ->
  _request (drain w) ≠ "error" ->
  listeners (_request (drain w)) (emitter w) = [] ->
  next (S k) w = Returned (PromiseOf (length (promises w))) (requesting w)
  ∧ _waiting (drain (requesting w)) = true
  ∧ requests_emitted (requesting w) = S (requests_emitted w)
  ∧ await (PromiseOf (length (promises w))) (requesting w) = AwaitForever
  ∧ asyncDrain (S n) (S k) w = Suspended (requesting w).
Proof.
  intros Hd Hc _ Hl.
  assert (next (S k) w = Returned (PromiseOf (length (promises w))) (requesting w)) as Hn.
  { rewrite next_idle_unfold by done. by rewrite Hl. }
  assert (await (PromiseOf (length (promises w))) (requesting w) = AwaitForever) as Ha.
  { simpl. by rewrite list_lookup_middle. }
  split; [exact Hn|]. split; [done|]. split.
  - unfold requesting. rewrite requests_emitted_log. unfold requests_emitted. simpl. lia.
  - split; [exact Ha|]. unfold asyncDrain. cbn [asyncDrain_from]. by rewrite Hn, Ha.
Qed.

Lemma unanswered_request_suspends_witness :
  next 1 w_fresh = Returned (PromiseOf 0) (requesting w_fresh)
  ∧ _waiting (drain (requesting w_fresh)) = true
  ∧ requests_emitted (requesting w_fresh) = 1
  ∧ await (PromiseOf 0) (requesting w_fresh) = AwaitForever
  ∧ asyncDrain 1 1 w_fresh = Suspended (requesting w_fresh).
Proof.
  apply (unanswered_request_suspends w_fresh 0 0).
  - vm_compute. reflexivity.
  - vm_compute. reflexivity.
  - vm_compute. discriminate.
  - vm_compute. reflexivity.
Defined.

(** ** A request answered twice *)

(** X13: when a listener answers one request with two responses, the first
    settles the holder.  If its [done] is falsy the second finds the drain
    waiting for nothing: [handleResponse] throws inside [next()], so the
    promise [next()] returns is rejected with that error although the
    holder was fulfilled.  If its [done] is truthy the drain has been
    disposed before the second is emitted, which reaches nobody.  The
    response event is not [error] and nobody listens to
    [removeListener]. *)
Theorem request_answered_twice w r1 r2 v k :
  _done (drain w) = false ->
  _current (drain w) = None ->
  _response (drain w) ≠ "error" ->
  listeners "removeListener" (emitter w) = [] ->
  listeners (_request (drain w)) (emitter w)
    = [External (twice (_response (drain w)) r1 r2)] ->
  listeners (_response (drain w)) (emitter w) = [BoundHandleResponse] ->
  get_done r1 (responses w) = Yields v ->
  ∃ w',
    next (2 + k) w =
      Returned (if truthy v then PromiseOf (length (promises w))
                else RejectedWith (Error (toString (drain w) +:+ unexpected))) w'
    ∧ promises w' = promises w ++ [Fulfilled r1]
    ∧ _done (drain w') = truthy v
    ∧ _current (drain w') = None
    ∧ resolve_calls w' = S (resolve_calls w)
    ∧ reject_calls w' = reject_calls w.
Proof.
  destruct w as [[rq rp dn cur wt] em ps rs tr]. simpl.
  intros -> -> _ _ Hreq Hresp Hd1.
  unfold next, _makeNextRequest. simpl. rewrite Hreq. simpl. rewrite Hresp. simpl.
  unfold handleResponse at 1. simpl. rewrite Hd1.
  unfold resolve_calls, reject_calls.
  destruct (truthy v) eqn:Hv; unfold call_resolve; simpl; rewrite settle_last; simpl.
  - rewrite listeners_removeListener_eq, Hresp. simpl.
    eexists. split; [reflexivity|]. simpl. rewrite !count_if_app. simpl.
    repeat split; try done; lia.
  - rewrite Hresp. simpl.
    eexists. split; [reflexivity|]. simpl. rewrite !count_if_app. simpl.
    repeat split; try done; lia.
Qed.

Lemma request_answered_twice_witness :
  let w := new_Drain {[ "req" := [twice "res" (item "a") (item "b")] ]} []
                     {| request := "req"; response := "res" |} in
  ∃ w',
    next 2 w =
      Returned (RejectedWith (Error ("<Drain (request: req response: res)>" +:+ unexpected))) w'
    ∧ promises w' = [Fulfilled (item "a")]
    ∧ _done (drain w') = false
    ∧ _current (drain w') = None
    ∧ resolve_calls w' = 1
    ∧ reject_calls w' = 0.
Proof.
  apply (request_answered_twice
           (new_Drain {[ "req" := [twice "res" (item "a") (item "b")] ]} []
                      {| request := "req"; response := "res" |})
           (item "a") (item "b") (VBool false) 0).
  - vm_compute. reflexivity.
  - vm_compute. reflexivity.
  - vm_compute. discriminate.
  - vm_compute. reflexivity.
  - vm_compute. reflexivity.
  - vm_compute. reflexivity.
  - vm_compute. reflexivity.
Defined.

(** ** One event for requests and responses *)

(** X14: a drain built with the same event as request and as response, on
    an emitter where nobody else listens to it, answers its own request
    with [undefined]: the pull is rejected with the TypeError of reading
    [done], and the drain is left idle, not done and still subscribed. *)
Theorem same_event_rejects_the_pull ev (em : gmap string (list external)) rs k :
  em !! ev = None ->
  ∃ w',
    next (S k) (new_Drain em rs {| request := ev; response := ev |})
      = Returned (PromiseOf 0) w'
    ∧ promises w'
        = [Rejected (TypeError "Cannot read properties of undefined (reading 'done')")]
    ∧ _done (drain w') = false
    ∧ _current (drain w') = None
    ∧ _waiting (drain w') = false
    ∧ bound_count w' = 1.
Proof.
  intros Hnone.
  assert (listeners ev (emitter (new_Drain em rs {| request := ev; response := ev |}))
          = [BoundHandleResponse]) as Hl.
  { simpl. rewrite listeners_on_eq. unfold listeners. rewrite lookup_fmap, Hnone. done. }
  rewrite next_idle_unfold by done.
  change (_request (drain (new_Drain em rs {| request := ev; response := ev |}))) with ev.
  rewrite Hl. simpl. eexists. split; [reflexivity|]. simpl.
  repeat split. unfold bound_count. simpl.
  simpl in Hl. by rewrite Hl.
Qed.

Lemma same_event_rejects_the_pull_witness :
  ∃ w',
    next 1 (new_Drain ∅ abc {| request := "ping"; response := "ping" |})
      = Returned (PromiseOf 0) w'
    ∧ promises w'
        = [Rejected (TypeError "Cannot read properties of undefined (reading 'done')")]
    ∧ _done (drain w') = false
    ∧ _current (drain w') = None
    ∧ _waiting (drain w') = false
    ∧ bound_count w' = 1.
Proof. apply (same_event_rejects_the_pull "ping" ∅ abc 0). reflexivity. Defined.

(** ** Construction *)

(** X15: a new drain is idle and not done, has created no promise and
    emitted no request; its handler is subscribed once to the response
    event, after the listeners already there, and the listeners of every
    other event are as they were. *)
Theorem new_Drain_subscribes_once (em : gmap string (list external)) rs options :
  let w := new_Drain em rs options in
  _done (drain w) = false
  ∧ _current (drain w) = None
  ∧ _waiting (drain w) = false
  ∧ promises w = []
  ∧ requests_emitted w = 0
  ∧ listeners (response options) (emitter w)
      = (External <$> default [] (em !! response options)) ++ [BoundHandleResponse]
  ∧ listenerCount (response options) (emitter w)
      = S (length (default [] (em !! response options)))
  ∧ ∀ ev, ev ≠ response options ->
          listeners ev (emitter w) = External <$> default [] (em !! ev).
Proof.
  assert (∀ ev, listeners ev (fmap (M := list) External <$> em)
                = External <$> default [] (em !! ev)) as Hbase.
  { intros ev. unfold listeners. rewrite lookup_fmap. by destruct (em !! ev). }
  simpl. repeat split.
  - by rewrite listeners_on_eq, Hbase.
  - unfold listenerCount. rewrite listeners_on_eq, Hbase, length_app, length_fmap. simpl. lia.
  - intros ev Hne. by rewrite listeners_on_ne, Hbase.
Qed.

Lemma new_Drain_subscribes_once_witness :
  let w := new_Drain {[ "res" := [responder "other"] ]} abc
                     {| request := "req"; response := "res" |} in
  listenerCount "res" (emitter w) = 2
  ∧ listeners "res" (emitter w) = [External (responder "other"); BoundHandleResponse]
  ∧ listeners "req" (emitter w) = [].
Proof.
  destruct (new_Drain_subscribes_once {[ "res" := [responder "other"] ]} abc
              {| request := "req"; response := "res" |})
    as (_ & _ & _ & _ & _ & Hl & Hc & Ho).
  split; [exact Hc|]. split; [exact Hl|]. apply (Ho "req"). discriminate.
Defined.

(** ** One request and one holder per pull *)

(** X16: a call of [next()] that returns has emitted one request and
    created one holder when it found the drain not done and without
    holder, and none otherwise, whatever the listeners of the bus did in
    the meantime, answering at once included. *)
Theorem next_emits_at_most_one_request fuel w p w' :
  next fuel w = Returned p w' ->
  let pulls := if _done (drain w) then 0
               else match _current (drain w) with Some _ => 0 | None => 1 end in
  requests_emitted w' = requests_emitted w + pulls
  ∧ length (promises w') = length (promises w) + pulls.
Proof.
  intros Hn. destruct (_done (drain w)) eqn:Hd.
  { unfold next in Hn. rewrite Hd in Hn. injection Hn as <- <-. simpl. lia. }
  destruct (_current (drain w)) as [h|] eqn:Hc.
  { unfold next in Hn. rewrite Hd, Hc in Hn. injection Hn as <- <-. simpl. lia. }
  destruct fuel as [|fuel]; [unfold next in Hn; by rewrite Hd, Hc in Hn|].
  rewrite next_idle_unfold in Hn by done.
  set (P := fun w' : World => requests_emitted w' = S (requests_emitted w)
                              ∧ length (promises w') = S (length (promises w))).
  assert (∀ ev p0 w0, P w0 -> P (log (CallEmit ByOther ev p0) w0)) as Hlog.
  { intros ev p0 w0 [H1 H2]. split; [|done]. rewrite requests_emitted_log. simpl. lia. }
  assert (∀ rs w0, P w0 -> P (set_responses rs w0)) as Hrs by done.
  assert (∀ r w0, P w0 -> post P anything (handleResponse r w0)) as Hh.
  { intros r w0. apply counts_kept_handleResponse. }
  assert (P (requesting w)) as H0.
  { unfold P, requesting. rewrite requests_emitted_log. unfold requests_emitted. simpl.
    rewrite length_app. simpl. lia. }
  pose proof (call_all_post P anything Hrs Hh (emit fuel ByOther)
                (emit_other_post P anything Hlog Hrs Hh fuel)
                (listeners (_request (drain w)) (emitter w)) PUndefined (requesting w) H0) as H.
  unfold P in H.
  destruct (call_all _ _ _ _) as [[] w2|e w2|]; simpl in *; [| |done];
    injection Hn as <- <-; lia.
Qed.

Lemma next_emits_at_most_one_request_witness :
  ∃ p w',
    next 2 (w_responding "req" "res" abc) = Returned p w'
    ∧ requests_emitted w' = 1
    ∧ length (promises w') = 1
    ∧ await p w' = AwaitValue (item "a").
Proof.
  exists (PromiseOf 0).
  exists (do_op 2 OpNext (w_responding "req" "res" abc)).
  assert (next 2 (w_responding "req" "res" abc)
          = Returned (PromiseOf 0) (do_op 2 OpNext (w_responding "req" "res" abc))) as Hn.
  { vm_compute. reflexivity. }
  split; [exact Hn|].
  destruct (next_emits_at_most_one_request 2 (w_responding "req" "res" abc) (PromiseOf 0)
              (do_op 2 OpNext (w_responding "req" "res" abc)) Hn) as [H1 H2].
  split; [exact H1|]. split; [exact H2|]. vm_compute. reflexivity.
Defined.
